(** * Othello rules engine and random game driver

    Shallow embedding of [tools/generate_othello_games.py]: the class
    [OthelloBoard] (board, legality scan, move application, pass and
    end-of-game detection, notation codec) and the driver [generate_game].

    Conventions of the embedding.
    - A Python call that can raise is a computation in the [result] monad:
      [Ok v] is a normal return, [Raise e] an exception.  Loops whose
      termination is not structural take a fuel; running out of it is the
      separate outcome [OutOfFuel], so that "returns a value" always means
      "terminates without raising".
    - Methods that mutate [self] take the state and return the new one.
    - Lists are indexed the way Python does it: a negative index counts
      from the end, anything outside [-len, len) raises [IndexError]. *)

From Stdlib Require Import ZArith Lia Ascii String.
From Stdlib Require Import DecimalString DecimalZ DecimalPos.
From stdpp Require Import base list strings.

Local Open Scope Z_scope.

(** ** Results of Python computations *)

Inductive exn : Type :=
| IndexError
| ValueError
| Unsupported.  (* a value outside the fragment of Python that is modelled *)

Inductive result (A : Type) : Type :=
| Ok (a : A)
| Raise (e : exn)
| OutOfFuel.

Arguments Ok {A} a.
Arguments Raise {A} e.
Arguments OutOfFuel {A}.

(** Sequencing, written [x ← m; k]: an exception of [m] propagates. *)
Global Instance result_bind : MBind result := λ A B k m,
  match m with
  | Ok a => k a
  | Raise e => Raise e
  | OutOfFuel => OutOfFuel
  end.

(** ** Python sequences *)

Module Py.

(** Position designated by index [i] in a sequence of length [len]. *)
Definition index (len : nat) (i : Z) : result nat :=
  if bool_decide (0 <= i < Z.of_nat len) then Ok (Z.to_nat i)
  else if bool_decide (- Z.of_nat len <= i < 0) then Ok (Z.to_nat (i + Z.of_nat len))
  else Raise IndexError.

(** [l[i]] *)
Definition getitem {A : Type} (l : list A) (i : Z) : result A :=
  n ← index (length l) i;
  match l !! n with
  | Some x => Ok x
  | None => Raise IndexError
  end.

(** [l[i] = v] *)
Definition setitem {A : Type} (l : list A) (i : Z) (v : A) : result (list A) :=
  n ← index (length l) i;
  Ok (<[n := v]> l).

(** [range(n)] *)
Definition range (n : Z) : list Z := Z.of_nat <$> seq 0 (Z.to_nat n).

(** [chr(n)].  Strings of the model hold code points below 256 only;
    Python raises [ValueError] outside [0, 0x110000). *)
Definition chr (n : Z) : result ascii :=
  if bool_decide (0 <= n < 256) then Ok (ascii_of_N (Z.to_N n))
  else if bool_decide (0 <= n < 1114112) then Raise Unsupported
  else Raise ValueError.

(** [ord(c)] *)
Definition ord (c : ascii) : Z := Z.of_N (N_of_ascii c).

(** [str(n)] for an integer: its decimal numeral. *)
Definition str (n : Z) : string := NilZero.string_of_int (Z.to_int n).

(** [s[i]] on a string: a one-character string in Python, here the
    character itself. *)
Definition strindex (s : string) (i : Z) : result ascii :=
  getitem (list_ascii_of_string s) i.

(** [int(c)] on a one-character string: among the code points below 256
    only the ten ASCII digits are accepted. *)
Definition int (c : ascii) : result Z :=
  let n := ord c in
  if bool_decide (48 <= n <= 57) then Ok (n - 48) else Raise ValueError.

End Py.

(** ** The class [OthelloBoard] *)

Definition SIZE : Z := 8.

Inductive cell : Type := EMPTY | BLACK | WHITE.

Global Instance cell_eq_dec : EqDecision cell.
Proof. solve_decision. Defined.

Definition DIRECTIONS : list (Z * Z) :=
  [ (-1, -1); (-1, 0); (-1, 1);
    (0, -1);           (0, 1);
    (1, -1);  (1, 0);  (1, 1) ].

Record OthelloBoard : Type := mkBoard {
  board : list (list cell);
  current_player : cell;
  moves : list string
}.

(** [__init__] *)
Definition empty_board : list (list cell) :=
  (fun _ => (fun _ => EMPTY) <$> Py.range SIZE) <$> Py.range SIZE.

(** [b[row][col]] *)
Definition cell_at (b : list (list cell)) (row col : Z) : result cell :=
  line ← Py.getitem b row;
  Py.getitem line col.

(** [b[row][col] = v] *)
Definition set_cell (b : list (list cell)) (row col : Z) (v : cell)
  : result (list (list cell)) :=
  line ← Py.getitem b row;
  line' ← Py.setitem line col v;
  Py.setitem b row line'.

Definition init : result OthelloBoard :=
  b ← set_cell empty_board 3 3 WHITE;
  b ← set_cell b 3 4 BLACK;
  b ← set_cell b 4 3 BLACK;
  b ← set_cell b 4 4 WHITE;
  Ok {| board := b; current_player := BLACK; moves := [] |}.

(** [WHITE if player == BLACK else BLACK] *)
Definition other (player : cell) : cell :=
  if bool_decide (player = BLACK) then WHITE else BLACK.

(** [0 <= r < SIZE and 0 <= c < SIZE] *)
Definition in_range (r c : Z) : bool :=
  bool_decide (0 <= r < SIZE) && bool_decide (0 <= c < SIZE).

(** [0 <= r < SIZE and 0 <= c < SIZE and b[r][c] == opponent]: the cell is
    read only when the range test has passed. *)
Definition opponent_at (b : list (list cell)) (opponent : cell) (r c : Z)
  : result bool :=
  if in_range r c then
    x ← cell_at b r c;
    Ok (bool_decide (x = opponent))
  else Ok false.

(** The inner [while] of [is_valid_move], entered at [(r, c)]: [Ok true]
    when it executes [return True], [Ok false] when it ends by [break] or
    by its condition. *)
Fixpoint valid_walk (fuel : nat) (self : OthelloBoard) (dr dc r c : Z)
  : result bool :=
  match fuel with
  | O => OutOfFuel
  | S fuel' =>
      if in_range r c then
        x ← cell_at (board self) r c;
        if bool_decide (x = EMPTY) then Ok false
        else if bool_decide (x = current_player self) then Ok true
        else valid_walk fuel' self dr dc (r + dr) (c + dc)
      else Ok false
  end.

(** Fuel of the directional walks: a walk stays on the board and leaves
    it after at most [SIZE] steps. *)
Definition WALK_FUEL : nat := S (Z.to_nat SIZE).

(** The [for dr, dc in DIRECTIONS] loop of [is_valid_move]. *)
Fixpoint valid_dirs (self : OthelloBoard) (opponent : cell) (row col : Z)
  (dirs : list (Z * Z)) : result bool :=
  match dirs with
  | [] => Ok false
  | (dr, dc) :: dirs' =>
      let r := row + dr in
      let c := col + dc in
      adjacent ← opponent_at (board self) opponent r c;
      if adjacent : bool then
        found ← valid_walk WALK_FUEL self dr dc (r + dr) (c + dc);
        if found : bool then Ok true
        else valid_dirs self opponent row col dirs'
      else valid_dirs self opponent row col dirs'
  end.

Definition is_valid_move (self : OthelloBoard) (row col : Z) : result bool :=
  x ← cell_at (board self) row col;
  if bool_decide (x <> EMPTY) then Ok false
  else
    let opponent := other (current_player self) in
    valid_dirs self opponent row col DIRECTIONS.

(** [get_valid_moves]: the two nested [for] loops, row-major. *)
Fixpoint scan_cols (self : OthelloBoard) (row : Z) (cols : list Z)
  (valid_moves : list (Z * Z)) : result (list (Z * Z)) :=
  match cols with
  | [] => Ok valid_moves
  | col :: cols' =>
      v ← is_valid_move self row col;
      scan_cols self row cols'
        (if v : bool then valid_moves ++ [(row, col)] else valid_moves)
  end.

Fixpoint scan_rows (self : OthelloBoard) (rows : list Z)
  (valid_moves : list (Z * Z)) : result (list (Z * Z)) :=
  match rows with
  | [] => Ok valid_moves
  | row :: rows' =>
      valid_moves' ← scan_cols self row (Py.range SIZE) valid_moves;
      scan_rows self rows' valid_moves'
  end.

Definition get_valid_moves (self : OthelloBoard) : result (list (Z * Z)) :=
  scan_rows self (Py.range SIZE) [].

(** [coords_to_notation] and [notation_to_coords] *)
Definition coords_to_notation (row col : Z) : result string :=
  letter ← Py.chr (97 + col);
  Ok (String letter (Py.str (row + 1))).

Definition notation_to_coords (notation : string) : result (Z * Z) :=
  c0 ← Py.strindex notation 0;
  let col := Py.ord c0 - 97 in
  c1 ← Py.strindex notation 1;
  d ← Py.int c1;
  let row := d - 1 in
  Ok (row, col).

(** The [while] of [make_move] that collects the cells to flip in one
    direction, entered at [(r, c)] with the cells collected so far. *)
Fixpoint flip_walk (fuel : nat) (b : list (list cell)) (player opponent : cell)
  (dr dc r c : Z) (to_flip : list (Z * Z)) : result (list (Z * Z)) :=
  match fuel with
  | O => OutOfFuel
  | S fuel' =>
      continue ← opponent_at b opponent r c;
      if continue : bool then
        let to_flip := to_flip ++ [(r, c)] in
        let r := r + dr in
        let c := c + dc in
        stop ← (if negb (in_range r c) then Ok true
                else (x ← cell_at b r c; Ok (bool_decide (x = EMPTY))));
        if stop : bool then Ok []
        else
          x ← cell_at b r c;
          if bool_decide (x = player) then Ok to_flip
          else flip_walk fuel' b player opponent dr dc r c to_flip
      else Ok to_flip
  end.

(** [for flip_r, flip_c in to_flip: self.board[flip_r][flip_c] = player] *)
Fixpoint flip_cells (b : list (list cell)) (player : cell)
  (to_flip : list (Z * Z)) : result (list (list cell)) :=
  match to_flip with
  | [] => Ok b
  | (flip_r, flip_c) :: rest =>
      b' ← set_cell b flip_r flip_c player;
      flip_cells b' player rest
  end.

(** The [for dr, dc in DIRECTIONS] loop of [make_move]. *)
Fixpoint flip_dirs (b : list (list cell)) (player opponent : cell)
  (row col : Z) (dirs : list (Z * Z)) : result (list (list cell)) :=
  match dirs with
  | [] => Ok b
  | (dr, dc) :: dirs' =>
      to_flip ← flip_walk WALK_FUEL b player opponent dr dc (row + dr) (col + dc) [];
      b' ← flip_cells b player to_flip;
      flip_dirs b' player opponent row col dirs'
  end.

Definition make_move (self : OthelloBoard) (row col : Z)
  : result (bool * OthelloBoard) :=
  valid ← is_valid_move self row col;
  if negb valid then Ok (false, self)
  else
    let player := current_player self in
    b ← set_cell (board self) row col player;
    let opponent := other player in
    b ← flip_dirs b player opponent row col DIRECTIONS;
    move_notation ← coords_to_notation row col;
    Ok (true, {| board := b;
                 current_player := other player;
                 moves := moves self ++ [move_notation] |}).

Definition has_valid_moves (self : OthelloBoard) : result bool :=
  valid_moves ← get_valid_moves self;
  Ok (bool_decide (0 < length valid_moves)%nat).

Definition switch_player (self : OthelloBoard) : OthelloBoard :=
  {| board := board self;
     current_player := other (current_player self);
     moves := moves self |}.

Definition is_game_over (self : OthelloBoard) : result (bool * OthelloBoard) :=
  has ← has_valid_moves self;
  if has : bool then Ok (false, self)
  else
    let self := switch_player self in
    has_moves ← has_valid_moves self;
    let self := switch_player self in
    Ok (negb has_moves, self).

Definition get_moves_notation (self : OthelloBoard) : list string := moves self.

(** ** The driver [generate_game] *)

(** [random.choice(seq)], given the number drawn: an index below
    [len(seq)]; an empty sequence raises [IndexError]. *)
Definition choice {A : Type} (draw : nat) (seq : list A) : result A :=
  match seq !! (draw `mod` length seq)%nat with
  | Some x => Ok x
  | None => Raise IndexError
  end.

(** What one turn of the [while not board.is_game_over()] loop did: the
    condition ended the loop, the body took the [continue] branch (a pass),
    or the body applied a move. *)
Inductive ply : Type := Finished | Passed | Placed.

(** One turn of the loop, condition included; [draw] is the number that
    [random.choice] draws if it is called. *)
Definition game_ply (draw : nat) (board : OthelloBoard)
  : result (ply * OthelloBoard) :=
  '(over, board) ← is_game_over board;
  if over : bool then Ok (Finished, board)
  else
    valid_moves ← get_valid_moves board;
    match valid_moves with
    | [] => Ok (Passed, switch_player board)
    | _ :: _ =>
        '(row, col) ← choice draw valid_moves;
        '(_, board) ← make_move board row col;
        Ok (Placed, board)
    end.

(** The loop.  The random source is the sequence [rnd] of numbers drawn, of
    which [k] are already consumed. *)
Fixpoint game_loop (fuel : nat) (rnd : nat -> nat) (k : nat)
  (board : OthelloBoard) : result OthelloBoard :=
  match fuel with
  | O => OutOfFuel
  | S fuel' =>
      '(outcome, board) ← game_ply (rnd k) board;
      match outcome with
      | Finished => Ok board
      | Passed => game_loop fuel' rnd k board
      | Placed => game_loop fuel' rnd (S k) board
      end
  end.

Definition generate_game (fuel : nat) (rnd : nat -> nat) : result (list string) :=
  board ← init;
  board ← game_loop fuel rnd 0 board;
  Ok (get_moves_notation board).

(** Number of turns of the loop that [generate_game] is given: the 60
    empty cells of the starting position allow 60 placements, each preceded
    by at most one pass, and one more turn finds the game over. *)
Definition GAME_FUEL : nat := 121.

(** ** Replaying a recorded game *)

(** Replay of a token list, as the specification describes it: at each
    token the current player passes when it has no valid move, then the
    token is decoded and applied with [make_move]. *)
Fixpoint replay (tokens : list string) (board : OthelloBoard)
  : result OthelloBoard :=
  match tokens with
  | [] => Ok board
  | token :: rest =>
      has ← has_valid_moves board;
      let board := if has : bool then board else switch_player board in
      '(row, col) ← notation_to_coords token;
      '(_, board) ← make_move board row col;
      replay rest board
  end.

(** A well-formed token: a letter ['a'..'h'] followed by a digit ['1'..'8']. *)
Definition well_formed (token : string) : Prop :=
  match token with
  | String letter (String digit EmptyString) =>
      97 ≤ Py.ord letter ≤ 104 ∧ 49 ≤ Py.ord digit ≤ 56
  | _ => False
  end.

(** ** Board contents and well-formedness *)

(** A board is well formed when it is a list of [SIZE] lists of [SIZE]
    cells, as [__init__] builds it. *)
Definition wf_board (b : list (list cell)) : Prop :=
  length b = Z.to_nat SIZE ∧ Forall (λ line, length line = Z.to_nat SIZE) b.

(** The players are the two colours. *)
Definition is_player (p : cell) : Prop := p = BLACK ∨ p = WHITE.

(** Content of a cell given by non-negative coordinates. *)
Definition peek (b : list (list cell)) (r c : Z) : cell :=
  default EMPTY (b !! Z.to_nat r ≫= λ line, line !! Z.to_nat c).

(** Number of occupied cells. *)
Definition occupied_line (line : list cell) : nat :=
  length (filter (λ x, x ≠ EMPTY) line).

Definition occupied (b : list (list cell)) : nat :=
  sum_list (occupied_line <$> b).

Definition weight (x : cell) : nat := if decide (x = EMPTY) then 0 else 1.

Definition on_board (r c : Z) : Prop := 0 ≤ r < SIZE ∧ 0 ≤ c < SIZE.

(** ** The capture rule, as the specification words it *)

(** The cell [(r, c)] lies on the board and holds colour [p]. *)
Definition held_by (b : list (list cell)) (p : cell) (r c : Z) : Prop :=
  on_board r c ∧ cell_at b r c = Ok p.

(** Direction [(dr, dc)] captures for the candidate [(row, col)]: starting
    from the adjacent cell there is a run of [k ≥ 1] cells of the opponent,
    all on the board, immediately followed by a cell of the active player. *)
Definition captures (self : OthelloBoard) (row col dr dc : Z) : Prop :=
  ∃ k : nat, (1 ≤ k)%nat
    ∧ (∀ i : nat, (1 ≤ i ≤ k)%nat →
         held_by (board self) (other (current_player self))
           (row + Z.of_nat i * dr) (col + Z.of_nat i * dc))
    ∧ held_by (board self) (current_player self)
        (row + (Z.of_nat k + 1) * dr) (col + (Z.of_nat k + 1) * dc).

(** ** Notions used in the proofs *)

(** From [(r, c)] onwards: [n] cells of [opponent], then one of [player]. *)
Fixpoint run_then_own (b : list (list cell)) (player opponent : cell)
  (dr dc r c : Z) (n : nat) : Prop :=
  match n with
  | O => held_by b player r c
  | S n' => held_by b opponent r c
            ∧ run_then_own b player opponent dr dc (r + dr) (c + dc) n'
  end.

(** Steps left before a walk in direction [(dr, dc)] leaves the board. *)
Definition room (dr dc r c : Z) : Z :=
  if decide (dr = 1) then SIZE - r
  else if decide (dr = -1) then r + 1
  else if decide (dc = 1) then SIZE - c
  else c + 1.

(** A cell that [make_move] may flip: on the board, of the opponent. *)
Definition flippable (b : list (list cell)) (opponent : cell) (p : Z * Z)
  : Prop :=
  on_board p.1 p.2 ∧ peek b p.1 p.2 = opponent.

(** [b] is [b0] after some flips: same shape, same number of occupied
    cells, and a cell that changed went from [opponent] to [player]. *)
Definition flips_of (b0 b : list (list cell)) (player opponent : cell) : Prop :=
  wf_board b ∧ occupied b = occupied b0
  ∧ ∀ r c, on_board r c →
      peek b r c = peek b0 r c
      ∨ (peek b0 r c = opponent ∧ peek b r c = player).

(** The invariant of the loop: an 8×8 board and a colour to move. *)
Definition good (self : OthelloBoard) : Prop :=
  wf_board (board self) ∧ is_player (current_player self).

Global Instance on_board_dec r c : Decision (on_board r c).
Proof. unfold on_board. apply _. Defined.

Global Instance wf_board_dec b : Decision (wf_board b).
Proof. unfold wf_board. apply _. Defined.

Global Instance is_player_dec p : Decision (is_player p).
Proof. unfold is_player. apply _. Defined.

Global Instance good_dec self : Decision (good self).
Proof. unfold good. apply _. Defined.

(** ** Positions of reference *)

(** The position that [__init__] builds. *)
Definition new_board : OthelloBoard :=
  {| board :=
       [ [EMPTY; EMPTY; EMPTY; EMPTY; EMPTY; EMPTY; EMPTY; EMPTY];
         [EMPTY; EMPTY; EMPTY; EMPTY; EMPTY; EMPTY; EMPTY; EMPTY];
         [EMPTY; EMPTY; EMPTY; EMPTY; EMPTY; EMPTY; EMPTY; EMPTY];
         [EMPTY; EMPTY; EMPTY; WHITE; BLACK; EMPTY; EMPTY; EMPTY];
         [EMPTY; EMPTY; EMPTY; BLACK; WHITE; EMPTY; EMPTY; EMPTY];
         [EMPTY; EMPTY; EMPTY; EMPTY; EMPTY; EMPTY; EMPTY; EMPTY];
         [EMPTY; EMPTY; EMPTY; EMPTY; EMPTY; EMPTY; EMPTY; EMPTY];
         [EMPTY; EMPTY; EMPTY; EMPTY; EMPTY; EMPTY; EMPTY; EMPTY] ];
     current_player := BLACK;
     moves := [] |}.

(** The position after the first [n] turns of the loop. *)
Fixpoint after_turns (n : nat) (rnd : nat -> nat) (k : nat)
  (board : OthelloBoard) : result OthelloBoard :=
  match n with
  | O => Ok board
  | S n' =>
      '(outcome, board) ← game_ply (rnd k) board;
      match outcome with
      | Finished => Ok board
      | Passed => after_turns n' rnd k board
      | Placed => after_turns n' rnd (S k) board
      end
  end.

(** The position of the run that always draws 0 (the first valid move)
    after 18 turns: Black is to move and has no valid move, White has. *)
Definition pass_position : OthelloBoard :=
  {| board :=
       [ [WHITE; WHITE; WHITE; WHITE; WHITE; WHITE; WHITE; EMPTY];
         [WHITE; WHITE; WHITE; WHITE; BLACK; EMPTY; EMPTY; EMPTY];
         [WHITE; BLACK; BLACK; BLACK; EMPTY; EMPTY; EMPTY; EMPTY];
         [EMPTY; EMPTY; BLACK; BLACK; BLACK; EMPTY; EMPTY; EMPTY];
         [EMPTY; EMPTY; EMPTY; BLACK; BLACK; BLACK; EMPTY; EMPTY];
         [EMPTY; EMPTY; EMPTY; EMPTY; EMPTY; EMPTY; EMPTY; EMPTY];
         [EMPTY; EMPTY; EMPTY; EMPTY; EMPTY; EMPTY; EMPTY; EMPTY];
         [EMPTY; EMPTY; EMPTY; EMPTY; EMPTY; EMPTY; EMPTY; EMPTY] ];
     current_player := BLACK;
     moves := ["d3"; "c3"; "b3"; "b2"; "b1"; "a1"; "c4"; "c1"; "c2";
               "d2"; "d1"; "e1"; "a2"; "a3"; "f5"; "e2"; "f1"; "g1"] |}.

(** The end of the run that always draws 0. *)
Definition first_move_game_end : OthelloBoard :=
  Eval vm_compute in
    match game_loop GAME_FUEL (λ _, 0%nat) 0 new_board with
    | Ok final => final
    | _ => new_board
    end.

(** The [n] cells met from [(r, c)] on in direction [(dr, dc)]. *)
Fixpoint ray_cells (dr dc r c : Z) (n : nat) : list (Z * Z) :=
  match n with
  | O => []
  | S n' => (r, c) :: ray_cells dr dc (r + dr) (c + dc) n'
  end.

(** Cell [p] is taken by a move on [(row, col)] in direction [(dr, dc)]: it
    belongs to a run of opponent cells that starts next to [(row, col)]
    and ends on a cell of the player. *)
Definition taken (b : list (list cell)) (player : cell) (row col : Z)
  (d : Z * Z) (p : Z * Z) : Prop :=
  ∃ k : nat,
    run_then_own b player (other player) d.1 d.2 (row + d.1) (col + d.2) k
    ∧ p ∈ ray_cells d.1 d.2 (row + d.1) (col + d.2) k.

(** Cell [(r, c)] is captured by [player] moving on [(row, col)]: in some
    direction, a run of [k] opponent cells starts next to [(row, col)], is
    followed by a cell of [player], and [(r, c)] is the [i]-th of the run. *)
Definition captured (b : list (list cell)) (player : cell)
  (row col r c : Z) : Prop :=
  ∃ (dr dc : Z) (k i : nat),
    (dr, dc) ∈ DIRECTIONS ∧ (1 ≤ i ≤ k)%nat
    ∧ r = row + Z.of_nat i * dr ∧ c = col + Z.of_nat i * dc
    ∧ (∀ j : nat, (1 ≤ j ≤ k)%nat →
         held_by b (other player) (row + Z.of_nat j * dr) (col + Z.of_nat j * dc))
    ∧ held_by b player
        (row + (Z.of_nat k + 1) * dr) (col + (Z.of_nat k + 1) * dc).

(** The cells of the board in the order of the two loops of
    [get_valid_moves]: row by row, each row from column 0 on. *)
Definition cells_row_major : list (Z * Z) :=
  row ← Py.range SIZE; col ← Py.range SIZE; [(row, col)].

(** A token of the move list is backed by the board: it is well formed and
    the cell it names is on the board and occupied. *)
Definition backed (b : list (list cell)) (token : string) : Prop :=
  well_formed token
  ∧ ∃ row col, notation_to_coords token = Ok (row, col)
               ∧ on_board row col ∧ peek b row col ≠ EMPTY.

(** The move list and the board agree: one piece per recorded move on top
    of the four of the start, no token twice, every token backed. *)
Definition recorded (self : OthelloBoard) : Prop :=
  occupied (board self) = (4 + length (moves self))%nat
  ∧ NoDup (moves self)
  ∧ Forall (backed (board self)) (moves self).

(** ** [generate_games] and [save_games] *)

(** The [for _ in range(num_games)] loop of [generate_games]; [turns] are
    the values of the loop variable still to come.  The random source is
    split by game: the numbers drawn during game [i] are [rnds i]. *)
Fixpoint generate_games_loop (fuel : nat) (rnds : nat -> nat -> nat)
  (turns : list Z) (games : list (list string))
  : result (list (list string)) :=
  match turns with
  | [] => Ok games
  | i :: turns' =>
      game ← generate_game fuel (rnds (Z.to_nat i));
      generate_games_loop fuel rnds turns' (games ++ [game])
  end.

Definition generate_games (fuel : nat) (rnds : nat -> nat -> nat)
  (num_games : Z) : result (list (list string)) :=
  generate_games_loop fuel rnds (Py.range num_games) [].

(** The line feed character. *)
Definition newline : string := String "010"%char EmptyString.

(** [sep.join(l)] *)
Fixpoint join (sep : string) (l : list string) : string :=
  match l with
  | [] => EmptyString
  | x :: l' =>
      match l' with
      | [] => x
      | _ :: _ => String.append x (String.append sep (join sep l'))
      end
  end.

(** The [for game in games] loop of [save_games]: each turn appends one
    line to the text [written] to the file so far. *)
Fixpoint write_games (games : list (list string)) (written : string)
  : string :=
  match games with
  | [] => written
  | game :: games' =>
      write_games games'
        (String.append written (String.append (join "," game) newline))
  end.

(** [save_games]: the text of the file it leaves, which it opens for
    writing and so starts empty. *)
Definition save_games (games : list (list string)) : string :=
  write_games games EmptyString.

(** Number of line feeds in a text. *)
Fixpoint count_newlines (s : string) : nat :=
  match s with
  | EmptyString => 0
  | String c s' =>
      ((if bool_decide (c = "010"%char) then 1 else 0) + count_newlines s')%nat
  end.

(** The text of a list of games, line by line. *)
Fixpoint lines_of (games : list (list string)) : string :=
  match games with
  | [] => EmptyString
  | game :: games' =>
      String.append (join "," game) (String.append newline (lines_of games'))
  end.

(** A game as [generate_game] returns them: at least one token, and only
    well-formed tokens. *)
Definition playable (game : list string) : Prop :=
  game ≠ [] ∧ Forall well_formed game.

(** The characters of a file of games: the letters a..h, the digits 1..8,
    the comma and the line feed. *)
Definition file_char (c : ascii) : Prop :=
  97 ≤ Py.ord c ≤ 104 ∨ 49 ≤ Py.ord c ≤ 56
  ∨ c = ","%char ∨ c = "010"%char.

(** * Proofs *)

Lemma in_range_true r c : in_range r c = true ↔ on_board r c.
Proof.
  unfold in_range, on_board. rewrite andb_true_iff, !bool_decide_eq_true. done.
Qed.

Lemma in_range_false r c : in_range r c = false ↔ ¬ on_board r c.
Proof.
  rewrite <- in_range_true. destruct (in_range r c); split; (done || tauto).
Qed.

Section PySequences.
Context {A : Type}.
Implicit Types (l : list A) (i : Z).

Lemma index_wrap (len : nat) i :
  - Z.of_nat len ≤ i < Z.of_nat len →
  Py.index len i = Ok (Z.to_nat (i `mod` Z.of_nat len)).
Proof.
  intros Hi. unfold Py.index.
  case_bool_decide as H1.
  - by rewrite Z.mod_small.
  - rewrite bool_decide_true by lia.
    do 2 f_equal. apply Z.mod_unique with (-1); lia.
Qed.

Lemma index_Ok (len : nat) i n : Py.index len i = Ok n → (n < len)%nat.
Proof.
  unfold Py.index. repeat case_bool_decide; intros; simplify_eq; lia.
Qed.

Lemma getitem_wrap l i :
  - Z.of_nat (length l) ≤ i < Z.of_nat (length l) →
  ∃ x, l !! Z.to_nat (i `mod` Z.of_nat (length l)) = Some x
       ∧ Py.getitem l i = Ok x.
Proof.
  intros Hi. unfold Py.getitem. rewrite index_wrap by done. simpl.
  destruct (lookup_lt_is_Some_2 l (Z.to_nat (i `mod` Z.of_nat (length l))))
    as [x Hx].
  { pose proof (Z.mod_pos_bound i (Z.of_nat (length l))). lia. }
  exists x. by rewrite Hx.
Qed.

Lemma setitem_wrap l i v :
  - Z.of_nat (length l) ≤ i < Z.of_nat (length l) →
  Py.setitem l i v = Ok (<[Z.to_nat (i `mod` Z.of_nat (length l)) := v]> l).
Proof. intros Hi. unfold Py.setitem. by rewrite index_wrap. Qed.
End PySequences.

Section Board.
Implicit Types (b : list (list cell)) (line : list cell) (r c : Z).

Lemma wf_board_lookup b n line :
  wf_board b → b !! n = Some line → length line = Z.to_nat SIZE.
Proof.
  intros [_ Hall] Hn. rewrite Forall_lookup in Hall. by eapply Hall.
Qed.

(** Reading with indices in [-SIZE, SIZE) never raises: a negative index
    designates the cell counted from the opposite edge. *)
Lemma cell_at_wrap b r c :
  wf_board b → - SIZE ≤ r < SIZE → - SIZE ≤ c < SIZE →
  cell_at b r c = Ok (peek b (r `mod` SIZE) (c `mod` SIZE)).
Proof.
  intros Hwf Hr Hc. unfold cell_at, peek.
  destruct (getitem_wrap b r) as (line & Hline & ->).
  { destruct Hwf as [-> _]. done. }
  simpl. pose proof (wf_board_lookup _ _ _ Hwf Hline) as Hlen.
  destruct (getitem_wrap line c) as (x & Hx & ->).
  { rewrite Hlen. done. }
  destruct Hwf as [Hb _]. rewrite Hb in Hline. rewrite Hlen in Hx.
  change (Z.of_nat (Z.to_nat SIZE)) with SIZE in *.
  rewrite Hline. simpl. by rewrite Hx.
Qed.

Lemma cell_at_on_board b r c :
  wf_board b → on_board r c → cell_at b r c = Ok (peek b r c).
Proof.
  intros Hwf [Hr Hc]. unfold SIZE in *.
  rewrite (cell_at_wrap _ _ _ Hwf) by (unfold SIZE; lia).
  unfold SIZE. by rewrite !Z.mod_small.
Qed.

Lemma occupied_line_insert line n x v :
  line !! n = Some x →
  (occupied_line (<[n := v]> line) + weight x
   = occupied_line line + weight v)%nat.
Proof.
  unfold occupied_line, weight.
  revert n. induction line as [|y line IH]; intros [|n] Hn; simplify_eq/=.
  - rewrite !filter_cons. repeat case_decide; simpl; try lia; done.
  - specialize (IH _ Hn). rewrite !filter_cons.
    repeat case_decide; simpl in *; lia.
Qed.

Lemma sum_list_insert (ns : list nat) n x v :
  ns !! n = Some x →
  (sum_list (<[n := v]> ns) + x = sum_list ns + v)%nat.
Proof.
  revert n. induction ns as [|y ns IH]; intros [|n] Hn; simplify_eq/=.
  - lia.
  - specialize (IH _ Hn). lia.
Qed.

(** Writing a cell of the board: the other cells keep their content and
    the number of occupied cells moves by the weight of the change. *)
Lemma set_cell_on_board b r c v :
  wf_board b → on_board r c →
  ∃ b', set_cell b r c v = Ok b' ∧ wf_board b'
    ∧ (∀ r' c', on_board r' c' →
         peek b' r' c' = if decide (r' = r ∧ c' = c) then v else peek b r' c')
    ∧ (occupied b' + weight (peek b r c) = occupied b + weight v)%nat.
Proof.
  intros Hwf [Hr Hc]. unfold set_cell.
  destruct (getitem_wrap b r) as (line & Hline & ->).
  { destruct Hwf as [-> _]. unfold SIZE in *. lia. }
  simpl. pose proof (wf_board_lookup _ _ _ Hwf Hline) as Hlen.
  pose proof Hwf as [Hb Hall].
  rewrite (setitem_wrap line c v) by (rewrite Hlen; unfold SIZE in *; lia).
  simpl. rewrite (setitem_wrap b r) by (rewrite Hb; unfold SIZE in *; lia).
  rewrite Hlen, Hb in *.
  change (Z.of_nat (Z.to_nat SIZE)) with SIZE in *.
  rewrite !Z.mod_small in * by done.
  eexists. split; [done|]. split; [|split].
  - split; [by rewrite length_insert|].
    apply Forall_insert; [done|]. by rewrite length_insert.
  - intros r' c' [Hr' Hc']. unfold peek.
    destruct (decide (r' = r)) as [->|Hne].
    + rewrite list_lookup_insert_eq by (rewrite Hb; unfold SIZE in *; lia).
      rewrite Hline. simpl.
      destruct (decide (c' = c)) as [->|Hne'].
      * rewrite list_lookup_insert_eq by (rewrite Hlen; unfold SIZE in *; lia).
        by rewrite decide_True.
      * rewrite list_lookup_insert_ne by lia.
        rewrite decide_False; [done | intros [_ ?]; done].
    + rewrite list_lookup_insert_ne by lia.
      rewrite decide_False; [done | intros [? _]; done].
  - unfold occupied. rewrite list_fmap_insert.
    destruct (lookup_lt_is_Some_2 line (Z.to_nat c)) as [x Hx].
    { rewrite Hlen. unfold SIZE in *. lia. }
    pose proof (occupied_line_insert line _ x v Hx) as H1.
    pose proof (sum_list_insert (occupied_line <$> b) (Z.to_nat r)
                  (occupied_line line)
                  (occupied_line (<[Z.to_nat c := v]> line))) as H2.
    rewrite list_lookup_fmap, Hline in H2. specialize (H2 eq_refl).
    unfold peek. rewrite Hline. simpl. rewrite Hx. simpl. lia.
Qed.

Lemma occupied_line_le line : (occupied_line line ≤ length line)%nat.
Proof. unfold occupied_line. apply length_filter. Qed.

Lemma occupied_le b : wf_board b → (occupied b ≤ 64)%nat.
Proof.
  intros [Hb Hall]. unfold occupied.
  assert (∀ ls : list (list cell),
    Forall (λ line, length line = Z.to_nat SIZE) ls →
    (sum_list (occupied_line <$> ls) ≤ length ls * 8)%nat) as Hsum.
  { induction 1 as [|line ls Hl _ IH]; [done|].
    pose proof (occupied_line_le line) as Hle. rewrite Hl in Hle.
    change (Z.to_nat SIZE) with 8%nat in Hle.
    rewrite fmap_cons, length_cons. simpl sum_list. lia. }
  specialize (Hsum b Hall). rewrite Hb in Hsum.
  change (Z.to_nat SIZE) with 8%nat in *. lia.
Qed.
End Board.

(** ** The directional walks *)

Ltac each_direction H :=
  unfold DIRECTIONS in H;
  repeat (apply elem_of_cons in H; destruct H as [H|H]);
  [injection H as -> -> ..| by apply elem_of_nil in H].

Lemma room_step dr dc r c :
  (dr, dc) ∈ DIRECTIONS → on_board r c →
  1 ≤ room dr dc r c ≤ SIZE
  ∧ room dr dc (r + dr) (c + dc) = room dr dc r c - 1.
Proof.
  intros Hd [Hr Hc]. unfold room, SIZE in *.
  each_direction Hd; repeat case_decide; lia.
Qed.

Lemma other_not_empty p : other p ≠ EMPTY.
Proof. unfold other. by case_bool_decide. Qed.

Lemma other_neq p : other p ≠ p.
Proof. unfold other. case_bool_decide; congruence. Qed.

Lemma other_other p : is_player p → other (other p) = p.
Proof. by intros [-> | ->]. Qed.

Lemma other_is_player p : is_player (other p).
Proof. unfold other, is_player. case_bool_decide; auto. Qed.

Lemma is_player_not_empty p : is_player p → p ≠ EMPTY.
Proof. by intros [-> | ->]. Qed.

Lemma third_colour p x : is_player p → x ≠ EMPTY → x ≠ p → x = other p.
Proof. intros [-> | ->]; by destruct x. Qed.

Lemma held_by_peek b p r c :
  wf_board b → held_by b p r c ↔ on_board r c ∧ peek b r c = p.
Proof.
  intros Hwf. unfold held_by. split; intros [Hon H]; split; try done.
  - rewrite cell_at_on_board in H by done. by simplify_eq.
  - by rewrite cell_at_on_board, H.
Qed.

Lemma run_then_own_spec b player opponent dr dc r c n :
  run_then_own b player opponent dr dc r c n ↔
    (∀ i : nat, (i < n)%nat →
       held_by b opponent (r + Z.of_nat i * dr) (c + Z.of_nat i * dc))
    ∧ held_by b player (r + Z.of_nat n * dr) (c + Z.of_nat n * dc).
Proof.
  revert r c. induction n as [|n IH]; intros r c; simpl run_then_own.
  - replace (r + Z.of_nat 0 * dr) with r by lia.
    replace (c + Z.of_nat 0 * dc) with c by lia.
    split; [intros H; split; [lia|done] | by intros [_ H]].
  - rewrite IH.
    replace (r + dr + Z.of_nat n * dr) with (r + Z.of_nat (S n) * dr) by lia.
    replace (c + dc + Z.of_nat n * dc) with (c + Z.of_nat (S n) * dc) by lia.
    split.
    + intros (H0 & Hi & Hn). split; [|done].
      intros [|i] Hlt.
      * replace (r + Z.of_nat 0 * dr) with r by lia.
        by replace (c + Z.of_nat 0 * dc) with c by lia.
      * replace (r + Z.of_nat (S i) * dr) with (r + dr + Z.of_nat i * dr) by lia.
        replace (c + Z.of_nat (S i) * dc) with (c + dc + Z.of_nat i * dc) by lia.
        apply Hi. lia.
    + intros (Hi & Hn). split; [|split; [|done]].
      * specialize (Hi 0%nat).
        replace (r + Z.of_nat 0 * dr) with r in Hi by lia.
        replace (c + Z.of_nat 0 * dc) with c in Hi by lia.
        apply Hi. lia.
      * intros i Hlt. specialize (Hi (S i)).
        replace (r + Z.of_nat (S i) * dr) with (r + dr + Z.of_nat i * dr) in Hi by lia.
        replace (c + Z.of_nat (S i) * dc) with (c + dc + Z.of_nat i * dc) in Hi by lia.
        apply Hi. lia.
Qed.

(** The capture rule in the shape the code checks it: the adjacent cell is
    the opponent's, and from the next one on a run ends on an own cell. *)
Lemma captures_unfold self row col dr dc :
  captures self row col dr dc ↔
    held_by (board self) (other (current_player self)) (row + dr) (col + dc)
    ∧ ∃ n, run_then_own (board self) (current_player self)
             (other (current_player self)) dr dc
             (row + dr + dr) (col + dc + dc) n.
Proof.
  unfold captures. split.
  - intros (k & Hk & Hrun & Hown). destruct k as [|k]; [lia|]. split.
    + specialize (Hrun 1%nat).
      replace (row + Z.of_nat 1 * dr) with (row + dr) in Hrun by lia.
      replace (col + Z.of_nat 1 * dc) with (col + dc) in Hrun by lia.
      apply Hrun. lia.
    + exists k. apply run_then_own_spec. split.
      * intros i Hi. specialize (Hrun (i + 2)%nat).
        replace (row + Z.of_nat (i + 2) * dr)
          with (row + dr + dr + Z.of_nat i * dr) in Hrun by lia.
        replace (col + Z.of_nat (i + 2) * dc)
          with (col + dc + dc + Z.of_nat i * dc) in Hrun by lia.
        apply Hrun. lia.
      * replace (row + dr + dr + Z.of_nat k * dr)
          with (row + (Z.of_nat (S k) + 1) * dr) by lia.
        by replace (col + dc + dc + Z.of_nat k * dc)
          with (col + (Z.of_nat (S k) + 1) * dc) by lia.
  - intros (Hadj & n & Hrun). apply run_then_own_spec in Hrun as [Hrun Hown].
    exists (S n). split; [lia|]. split.
    + intros [|[|i]] Hi; [lia| |].
      * replace (row + Z.of_nat 1 * dr) with (row + dr) by lia.
        by replace (col + Z.of_nat 1 * dc) with (col + dc) by lia.
      * specialize (Hrun i).
        replace (row + dr + dr + Z.of_nat i * dr)
          with (row + Z.of_nat (S (S i)) * dr) in Hrun by lia.
        replace (col + dc + dc + Z.of_nat i * dc)
          with (col + Z.of_nat (S (S i)) * dc) in Hrun by lia.
        apply Hrun. lia.
    + replace (row + (Z.of_nat (S n) + 1) * dr)
        with (row + dr + dr + Z.of_nat n * dr) by lia.
      by replace (col + (Z.of_nat (S n) + 1) * dc)
        with (col + dc + dc + Z.of_nat n * dc) by lia.
Qed.

Lemma opponent_at_spec b opponent r c :
  wf_board b →
  ∃ v, opponent_at b opponent r c = Ok v
       ∧ (v = true ↔ on_board r c ∧ peek b r c = opponent).
Proof.
  intros Hwf. unfold opponent_at. destruct (in_range r c) eqn:Hin.
  - apply in_range_true in Hin. rewrite cell_at_on_board by done. simpl.
    eexists. split; [done|]. rewrite bool_decide_eq_true. tauto.
  - apply in_range_false in Hin. exists false. split; [done|].
    split; [done | tauto].
Qed.

Section Walks.
Variable self : OthelloBoard.
Variables dr dc : Z.
Hypothesis Hwf : wf_board (board self).
Hypothesis Hdir : (dr, dc) ∈ DIRECTIONS.

Local Abbreviation player := (current_player self).
Local Abbreviation opponent := (other (current_player self)).

(** The walk of [is_valid_move] returns, and it returns [True] exactly
    when a run of opponent cells from [(r, c)] ends on an own cell. *)
Lemma valid_walk_spec fuel r c :
  (0 < fuel)%nat →
  (on_board r c → room dr dc r c < Z.of_nat fuel) →
  ∃ found, valid_walk fuel self dr dc r c = Ok found
    ∧ (is_player player →
       found = true ↔
       ∃ n, run_then_own (board self) player opponent dr dc r c n).
Proof.
  revert r c. induction fuel as [|fuel IH]; intros r c Hpos Hroom; [lia|].
  simpl valid_walk. destruct (in_range r c) eqn:Hin.
  - apply in_range_true in Hin. rewrite cell_at_on_board by done. simpl.
    destruct (room_step dr dc r c Hdir Hin) as [Hr1 Hr2].
    specialize (Hroom Hin).
    case_bool_decide as Hempty; [|case_bool_decide as Hown].
    + exists false. split; [done|]. intros Hp. split; [done|].
      intros [[|n] Hn]; simpl in Hn; [|destruct Hn as [Hn _]];
        apply held_by_peek in Hn as [_ Hn]; try done.
      * apply is_player_not_empty in Hp. congruence.
      * pose proof (other_not_empty player). congruence.
    + exists true. split; [done|]. intros _. split; [|done].
      intros _. exists 0%nat. by apply held_by_peek.
    + destruct (IH (r + dr) (c + dc)) as (found & -> & Hiff);
        [lia | intros _; lia |].
      exists found. split; [done|]. intros Hp. rewrite (Hiff Hp).
      split; intros [n Hn].
      * exists (S n). split; [|done]. apply held_by_peek; [done|].
        split; [done|]. by apply third_colour.
      * destruct n as [|n]; simpl in Hn.
        -- apply held_by_peek in Hn as [_ Hn]; done.
        -- exists n. by destruct Hn.
  - apply in_range_false in Hin. exists false. split; [done|].
    intros _. split; [done|].
    intros [[|n] Hn]; simpl in Hn; [|destruct Hn as [Hn _]];
      by destruct Hn.
Qed.
End Walks.

(** The walk of [make_move] returns, and every cell it collects is on the
    board and holds the opponent's colour. *)
Lemma flip_walk_spec b player opponent dr dc fuel r c to_flip :
  wf_board b → (dr, dc) ∈ DIRECTIONS →
  (0 < fuel)%nat →
  (on_board r c → room dr dc r c < Z.of_nat fuel) →
  Forall (flippable b opponent) to_flip →
  ∃ l, flip_walk fuel b player opponent dr dc r c to_flip = Ok l
       ∧ Forall (flippable b opponent) l.
Proof.
  intros Hb Hdir. revert r c to_flip.
  induction fuel as [|fuel IH]; intros r c to_flip Hpos Hroom Hall; [lia|].
  simpl flip_walk.
  destruct (opponent_at_spec b opponent r c Hb) as (v & -> & Hv). simpl.
  destruct v; [|by exists to_flip].
  destruct Hv as [Hv _]. destruct (Hv eq_refl) as [Hon Hopp].
  destruct (room_step dr dc r c Hdir Hon) as [Hr1 Hr2].
  specialize (Hroom Hon).
  destruct (in_range (r + dr) (c + dc)) eqn:Hin; simpl.
  - apply in_range_true in Hin. rewrite cell_at_on_board by done. simpl.
    case_bool_decide; [by exists []|]. simpl.
    case_bool_decide.
    + eexists. split; [done|]. apply Forall_app. split; [done|].
      by apply Forall_singleton.
    + apply IH; [lia | intros _; lia |].
      apply Forall_app. split; [done|]. by apply Forall_singleton.
  - by exists [].
Qed.

(** ** Legality *)

Lemma valid_dirs_spec self row col dirs :
  wf_board (board self) → dirs ⊆ DIRECTIONS →
  ∃ v, valid_dirs self (other (current_player self)) row col dirs = Ok v
    ∧ (is_player (current_player self) →
       v = true ↔
       ∃ dr dc, (dr, dc) ∈ dirs ∧ captures self row col dr dc).
Proof.
  intros Hwf. induction dirs as [|[dr dc] dirs IH]; intros Hsub.
  - exists false. split; [done|]. intros _. split; [done|].
    intros (dr & dc & Hin & _). by apply elem_of_nil in Hin.
  - assert ((dr, dc) ∈ DIRECTIONS) as Hdir by (apply Hsub; left).
    destruct IH as (v' & Hv' & Hiff').
    { intros d Hd. apply Hsub. by right. }
    assert ((is_player (current_player self) →
             ¬ captures self row col dr dc) →
            is_player (current_player self) →
            v' = true ↔ ∃ dr0 dc0, (dr0, dc0) ∈ (dr, dc) :: dirs
                                   ∧ captures self row col dr0 dc0) as Hskip.
    { intros Hno Hp. rewrite (Hiff' Hp). split.
      - intros (dr0 & dc0 & Hin & Hc). exists dr0, dc0. split; [by right|done].
      - intros (dr0 & dc0 & Hin & Hc). apply elem_of_cons in Hin as [Heq|Hin].
        + simplify_eq. by destruct (Hno Hp).
        + by exists dr0, dc0. }
    cbn [valid_dirs].
    destruct (opponent_at_spec (board self) (other (current_player self))
                (row + dr) (col + dc) Hwf) as (adj & -> & Hadj).
    cbn [mbind result_bind]. destruct adj.
    + destruct Hadj as [Hadj _]. specialize (Hadj eq_refl).
      destruct (valid_walk_spec self dr dc Hwf Hdir WALK_FUEL
                  (row + dr + dr) (col + dc + dc)) as (found & -> & Hfound).
      { unfold WALK_FUEL, SIZE. lia. }
      { intros Hon. destruct (room_step dr dc _ _ Hdir Hon) as [Hr _].
        unfold WALK_FUEL, SIZE in *. lia. }
      cbn [mbind result_bind]. destruct found.
      * exists true. split; [done|]. intros Hp. split; [|done]. intros _.
        exists dr, dc. split; [left|]. apply captures_unfold.
        split; [by apply held_by_peek|]. by apply (Hfound Hp).
      * exists v'. split; [done|]. apply Hskip.
        intros Hp Hc. apply captures_unfold in Hc as [_ Hrun].
        by apply (Hfound Hp) in Hrun.
    + exists v'. split; [done|]. apply Hskip.
      intros _ Hc. apply captures_unfold in Hc as [Hc _].
      apply held_by_peek in Hc; [|done]. destruct Hadj as [_ Hadj].
      specialize (Hadj Hc). done.
Qed.

(** [is_valid_move] returns for every index that Python accepts, reads the
    cell the (possibly negative) indices designate, and answers [True]
    exactly when that cell is empty and some direction captures. *)
Lemma is_valid_move_spec self row col :
  wf_board (board self) → - SIZE ≤ row < SIZE → - SIZE ≤ col < SIZE →
  ∃ v, is_valid_move self row col = Ok v
    ∧ (v = true → peek (board self) (row `mod` SIZE) (col `mod` SIZE) = EMPTY)
    ∧ (is_player (current_player self) →
       v = true ↔
       peek (board self) (row `mod` SIZE) (col `mod` SIZE) = EMPTY
       ∧ ∃ dr dc, (dr, dc) ∈ DIRECTIONS ∧ captures self row col dr dc).
Proof.
  intros Hwf Hr Hc. unfold is_valid_move.
  rewrite cell_at_wrap by done. cbn [mbind result_bind].
  case_bool_decide as Hx.
  - exists false. split; [done|]. split; [done|]. intros _. split; [done|].
    by intros [? _].
  - destruct (valid_dirs_spec self row col DIRECTIONS Hwf) as (v & -> & Hv);
      [done|].
    assert (peek (board self) (row `mod` SIZE) (col `mod` SIZE) = EMPTY)
      as Hempty by (by destruct (peek _ _ _)).
    exists v. split; [done|]. split; [done|]. intros Hp.
    rewrite (Hv Hp). tauto.
Qed.

Lemma is_valid_move_on_board self row col :
  wf_board (board self) → is_player (current_player self) → on_board row col →
  ∃ v, is_valid_move self row col = Ok v
    ∧ (v = true ↔
       peek (board self) row col = EMPTY
       ∧ ∃ dr dc, (dr, dc) ∈ DIRECTIONS ∧ captures self row col dr dc).
Proof.
  intros Hwf Hp [Hr Hc].
  destruct (is_valid_move_spec self row col Hwf) as (v & Hv & _ & Hiff);
    [unfold SIZE in *; lia..|].
  exists v. split; [done|]. rewrite (Hiff Hp).
  unfold SIZE in *. by rewrite !Z.mod_small.
Qed.

(** ** Enumeration of the legal moves *)

Lemma elem_of_range n i : i ∈ Py.range n ↔ 0 ≤ i < n.
Proof.
  unfold Py.range. rewrite list_elem_of_fmap. split.
  - intros (k & -> & Hk). apply elem_of_seq in Hk. lia.
  - intros Hi. exists (Z.to_nat i). split; [lia|]. apply elem_of_seq. lia.
Qed.

Lemma scan_cols_spec self row cols valid_moves :
  wf_board (board self) → 0 ≤ row < SIZE →
  Forall (λ col, 0 ≤ col < SIZE) cols →
  ∃ l, scan_cols self row cols valid_moves = Ok (valid_moves ++ l)
    ∧ ∀ r c, (r, c) ∈ l ↔
        r = row ∧ c ∈ cols ∧ is_valid_move self r c = Ok true.
Proof.
  intros Hwf Hrow Hcols. revert valid_moves.
  induction Hcols as [|col cols Hcol _ IH]; intros valid_moves.
  - exists []. split; [by rewrite app_nil_r|]. intros r c.
    split; [by intros ?%elem_of_nil | by intros (_ & ?%elem_of_nil & _)].
  - cbn [scan_cols].
    destruct (is_valid_move_spec self row col Hwf) as (v & Hv & _);
      [unfold SIZE in *; lia..|].
    rewrite Hv. cbn [mbind result_bind].
    destruct (IH (if v then valid_moves ++ [(row, col)] else valid_moves))
      as (l & -> & Hl).
    exists (if v then (row, col) :: l else l). split.
    + destruct v; [by rewrite <- app_assoc | done].
    + intros r c. destruct v.
      * rewrite !elem_of_cons, Hl. split.
        -- intros [Heq | (-> & Hin & Hok)]; [by simplify_eq; auto | auto].
        -- intros (-> & [-> | Hin] & Hok); auto.
      * rewrite elem_of_cons, Hl. split.
        -- intros (-> & Hin & Hok). auto.
        -- intros (-> & [-> | Hin] & Hok); [congruence | auto].
Qed.

Lemma scan_rows_spec self rows valid_moves :
  wf_board (board self) →
  Forall (λ row, 0 ≤ row < SIZE) rows →
  ∃ l, scan_rows self rows valid_moves = Ok (valid_moves ++ l)
    ∧ ∀ r c, (r, c) ∈ l ↔
        r ∈ rows ∧ 0 ≤ c < SIZE ∧ is_valid_move self r c = Ok true.
Proof.
  intros Hwf Hrows. revert valid_moves.
  induction Hrows as [|row rows Hrow _ IH]; intros valid_moves.
  - exists []. split; [by rewrite app_nil_r|]. intros r c.
    split; [by intros ?%elem_of_nil | by intros (?%elem_of_nil & _)].
  - cbn [scan_rows].
    destruct (scan_cols_spec self row (Py.range SIZE) valid_moves Hwf Hrow)
      as (l1 & -> & Hl1).
    { apply Forall_forall. intros c. apply elem_of_range. }
    cbn [mbind result_bind].
    destruct (IH (valid_moves ++ l1)) as (l2 & -> & Hl2).
    exists (l1 ++ l2). split; [by rewrite app_assoc|].
    intros r c. rewrite elem_of_app, Hl1, Hl2, elem_of_cons, elem_of_range.
    tauto.
Qed.

(** [get_valid_moves] returns exactly the cells of the board on which
    [is_valid_move] answers [True]. *)
Lemma get_valid_moves_spec self :
  wf_board (board self) →
  ∃ l, get_valid_moves self = Ok l
    ∧ ∀ r c, (r, c) ∈ l ↔ on_board r c ∧ is_valid_move self r c = Ok true.
Proof.
  intros Hwf.
  destruct (scan_rows_spec self (Py.range SIZE) [] Hwf) as (l & Hl & Hin).
  { apply Forall_forall. intros r. apply elem_of_range. }
  exists l. split; [done|]. intros r c.
  rewrite Hin, elem_of_range. unfold on_board. tauto.
Qed.

Lemma has_valid_moves_spec self :
  wf_board (board self) →
  ∃ l, get_valid_moves self = Ok l
    ∧ has_valid_moves self = Ok (bool_decide (l ≠ [])).
Proof.
  intros Hwf. destruct (get_valid_moves_spec self Hwf) as (l & Hl & _).
  exists l. split; [done|]. unfold has_valid_moves. rewrite Hl.
  cbn [mbind result_bind]. f_equal. apply bool_decide_ext.
  destruct l; simpl; split; (done || lia).
Qed.

(** ** Turn management *)

Lemma switch_player_twice self :
  is_player (current_player self) →
  switch_player (switch_player self) = self.
Proof.
  intros Hp. destruct self as [b p m]. unfold switch_player. simpl in *.
  by rewrite other_other.
Qed.

Lemma is_game_over_spec self :
  wf_board (board self) → is_player (current_player self) →
  ∃ l1 l2, get_valid_moves self = Ok l1
    ∧ get_valid_moves (switch_player self) = Ok l2
    ∧ is_game_over self = Ok (bool_decide (l1 = [] ∧ l2 = []), self).
Proof.
  intros Hwf Hp.
  destruct (has_valid_moves_spec self Hwf) as (l1 & Hl1 & Hh1).
  destruct (has_valid_moves_spec (switch_player self) Hwf) as (l2 & Hl2 & Hh2).
  exists l1, l2. split; [done|]. split; [done|].
  unfold is_game_over. rewrite Hh1. cbn [mbind result_bind].
  destruct l1 as [|p1 l1].
  - rewrite bool_decide_false by (by intros []).
    rewrite Hh2. cbn [mbind result_bind].
    rewrite switch_player_twice by done.
    destruct l2 as [|p2 l2].
    + rewrite bool_decide_false by (by intros []).
      by rewrite bool_decide_true.
    + rewrite bool_decide_true by done.
      by rewrite bool_decide_false by (by intros []).
  - rewrite bool_decide_true by done.
    by rewrite bool_decide_false by (by intros []).
Qed.

(** ** Applying a move *)

Lemma weight_not_empty x : x ≠ EMPTY → weight x = 1%nat.
Proof. intros Hx. unfold weight. by rewrite decide_False. Qed.

Lemma flip_cells_spec b0 player opponent to_flip :
  player ≠ EMPTY → opponent ≠ EMPTY →
  Forall (flippable b0 opponent) to_flip →
  ∀ b, flips_of b0 b player opponent →
  ∃ b', flip_cells b player to_flip = Ok b' ∧ flips_of b0 b' player opponent.
Proof.
  intros Hplayer Hopp. induction 1 as [|[r c] to_flip [Hon Hrc] _ IH];
    intros b (Hwf & Hocc & Hcells).
  - by exists b.
  - simpl in Hon, Hrc. cbn [flip_cells].
    destruct (set_cell_on_board b r c player Hwf Hon)
      as (b1 & -> & Hwf1 & Hpeek1 & Hocc1).
    cbn [mbind result_bind]. apply IH. split; [done|]. split.
    + rewrite <- Hocc. rewrite (weight_not_empty player) in Hocc1 by done.
      rewrite weight_not_empty in Hocc1; [lia|].
      destruct (Hcells r c Hon) as [-> | [_ ->]]; congruence.
    + intros r' c' Hon'. rewrite Hpeek1 by done. case_decide as Heq.
      * destruct Heq as [-> ->]. by right.
      * by apply Hcells.
Qed.

Lemma flip_dirs_spec b0 player opponent row col dirs :
  player ≠ EMPTY → opponent ≠ EMPTY → player ≠ opponent →
  dirs ⊆ DIRECTIONS →
  ∀ b, flips_of b0 b player opponent →
  ∃ b', flip_dirs b player opponent row col dirs = Ok b'
        ∧ flips_of b0 b' player opponent.
Proof.
  intros Hplayer Hopp Hne.
  induction dirs as [|[dr dc] dirs IH]; intros Hsub b Hb.
  - by exists b.
  - assert ((dr, dc) ∈ DIRECTIONS) as Hdir by (apply Hsub; left).
    cbn [flip_dirs]. pose proof Hb as (Hwf & _ & Hcells).
    destruct (flip_walk_spec b player opponent dr dc WALK_FUEL
                (row + dr) (col + dc) [] Hwf Hdir) as (l & -> & Hl).
    { unfold WALK_FUEL, SIZE. lia. }
    { intros Hon. destruct (room_step dr dc _ _ Hdir Hon) as [Hr _].
      unfold WALK_FUEL, SIZE in *. lia. }
    { constructor. }
    cbn [mbind result_bind].
    destruct (flip_cells_spec b0 player opponent l Hplayer Hopp) with (b := b)
      as (b1 & -> & Hb1); [|done|].
    { eapply Forall_impl; [exact Hl|]. intros [r c] [Hon Hrc].
      split; [done|]. simpl in *.
      destruct (Hcells r c Hon) as [<- | [_ Hx]]; congruence. }
    cbn [mbind result_bind]. apply IH; [|done].
    intros d Hd. apply Hsub. by right.
Qed.

Lemma coords_to_notation_on_board row col :
  on_board row col →
  coords_to_notation row col
  = Ok (String (ascii_of_N (Z.to_N (97 + col))) (Py.str (row + 1))).
Proof.
  intros [_ Hc]. unfold coords_to_notation, Py.chr.
  by rewrite bool_decide_true by (unfold SIZE in *; lia).
Qed.

(** A legal move is applied: the piece is placed on an empty cell, every
    other cell that changes goes from the opponent to the player, the hand
    passes to the opponent and the token of the move is recorded. *)
Lemma make_move_valid self row col :
  wf_board (board self) → is_player (current_player self) →
  on_board row col →
  is_valid_move self row col = Ok true →
  ∃ b token, coords_to_notation row col = Ok token
    ∧ make_move self row col
      = Ok (true, {| board := b;
                     current_player := other (current_player self);
                     moves := moves self ++ [token] |})
    ∧ wf_board b
    ∧ occupied b = S (occupied (board self))
    ∧ peek (board self) row col = EMPTY
    ∧ peek b row col = current_player self
    ∧ ∀ r c, on_board r c → r ≠ row ∨ c ≠ col →
        peek b r c = peek (board self) r c
        ∨ (peek (board self) r c = other (current_player self)
           ∧ peek b r c = current_player self).
Proof.
  intros Hwf Hp Hon Hvalid.
  destruct (is_valid_move_on_board self row col Hwf Hp Hon) as (v & Hv & Hiff).
  rewrite Hvalid in Hv. injection Hv as <-.
  destruct Hiff as [Hiff _]. destruct (Hiff eq_refl) as [Hempty _].
  unfold make_move. rewrite Hvalid. cbn [mbind result_bind negb].
  destruct (set_cell_on_board (board self) row col (current_player self)
              Hwf Hon) as (b1 & -> & Hwf1 & Hpeek1 & Hocc1).
  cbn [mbind result_bind].
  pose proof (is_player_not_empty _ Hp) as Hne.
  destruct (flip_dirs_spec b1 (current_player self)
              (other (current_player self)) row col DIRECTIONS)
    with (b := b1) as (b2 & -> & Hwf2 & Hocc2 & Hcells);
    [done | apply other_not_empty | by apply not_eq_sym, other_neq | done | |].
  { split; [done|]. split; [done|]. by left. }
  cbn [mbind result_bind]. rewrite coords_to_notation_on_board by done.
  cbn [mbind result_bind]. eexists _, _. split; [done|]. split; [done|].
  split; [done|]. split; [|split; [done|split]].
  - rewrite Hocc2. rewrite Hempty in Hocc1.
    rewrite (weight_not_empty (current_player self)) in Hocc1 by done.
    unfold weight in Hocc1. simpl in Hocc1. lia.
  - destruct (Hcells row col Hon) as [-> | [Hx _]].
    + rewrite Hpeek1 by done. by rewrite decide_True.
    + rewrite Hpeek1 in Hx by done. rewrite decide_True in Hx by done.
      by destruct (other_neq (current_player self)).
  - intros r c Hrc Hdiff.
    destruct (Hcells r c Hrc) as [-> | [Hx ->]].
    + left. rewrite Hpeek1 by done. rewrite decide_False; [done|].
      intros [-> ->]. by destruct Hdiff.
    + right. split; [|done]. rewrite Hpeek1 in Hx by done.
      rewrite decide_False in Hx; [done|]. intros [-> ->]. by destruct Hdiff.
Qed.

(** ** The notation codec *)

Lemma notation_roundtrip row col :
  on_board row col →
  ∃ token, coords_to_notation row col = Ok token
           ∧ notation_to_coords token = Ok (row, col).
Proof.
  intros [Hr Hc]. unfold SIZE in *.
  assert (row = 0 ∨ row = 1 ∨ row = 2 ∨ row = 3
          ∨ row = 4 ∨ row = 5 ∨ row = 6 ∨ row = 7) as Hrow by lia.
  assert (col = 0 ∨ col = 1 ∨ col = 2 ∨ col = 3
          ∨ col = 4 ∨ col = 5 ∨ col = 6 ∨ col = 7) as Hcol by lia.
  destruct_or!; subst; eexists; split; reflexivity.
Qed.

Lemma ord_range c : 0 ≤ Py.ord c < 256.
Proof.
  unfold Py.ord. pose proof (N_ascii_bounded c). lia.
Qed.

Lemma chr_ord c : Py.chr (Py.ord c) = Ok c.
Proof.
  unfold Py.chr. rewrite bool_decide_true by apply ord_range.
  unfold Py.ord. by rewrite N2Z.id, ascii_N_embedding.
Qed.

Lemma ord_inj c n : Py.ord c = Z.of_N n → c = ascii_of_N n.
Proof.
  unfold Py.ord. intros H%N2Z.inj. by rewrite <- H, ascii_N_embedding.
Qed.

Lemma token_roundtrip token :
  well_formed token →
  ∃ row col, notation_to_coords token = Ok (row, col)
             ∧ on_board row col
             ∧ coords_to_notation row col = Ok token.
Proof.
  destruct token as [|letter [|digit [|]]]; try done. intros [Hl Hd].
  exists (Py.ord digit - 48 - 1), (Py.ord letter - 97).
  split; [|split].
  - unfold notation_to_coords, Py.strindex. cbn [list_ascii_of_string].
    change (Py.getitem [letter; digit] 0) with (Ok letter).
    change (Py.getitem [letter; digit] 1) with (Ok digit).
    cbn [mbind result_bind]. unfold Py.int.
    by rewrite bool_decide_true by lia.
  - unfold on_board, SIZE. lia.
  - unfold coords_to_notation.
    replace (97 + (Py.ord letter - 97)) with (Py.ord letter) by lia.
    rewrite chr_ord. cbn [mbind result_bind]. do 2 f_equal.
    replace (Py.ord digit - 48 - 1 + 1) with (Py.ord digit - 48) by lia.
    assert (Py.ord digit = 49 ∨ Py.ord digit = 50 ∨ Py.ord digit = 51
            ∨ Py.ord digit = 52 ∨ Py.ord digit = 53 ∨ Py.ord digit = 54
            ∨ Py.ord digit = 55 ∨ Py.ord digit = 56) as Hcases by lia.
    destruct_or!;
      match goal with
      | H : Py.ord digit = ?n |- _ =>
          rewrite H; apply (ord_inj digit (Z.to_N n)) in H as ->
      end; reflexivity.
Qed.

(** ** The game loop *)

Lemma good_switch_player self : good self → good (switch_player self).
Proof. intros [Hwf _]. split; [done|]. apply other_is_player. Qed.

Lemma choice_spec {A : Type} (draw : nat) (x : A) (l : list A) :
  ∃ y, choice draw (x :: l) = Ok y ∧ y ∈ x :: l.
Proof.
  unfold choice.
  destruct (lookup_lt_is_Some_2 (x :: l) (draw `mod` length (x :: l)))
    as [y Hy].
  { apply Nat.mod_upper_bound. simpl. lia. }
  exists y. rewrite Hy. split; [done|]. by eapply list_elem_of_lookup_2.
Qed.

(** A turn of a player who has a valid move: one of these valid moves is
    applied.  The facts listed are those a replay of the token needs. *)
Lemma game_ply_placed draw self p l :
  good self → get_valid_moves self = Ok (p :: l) →
  ∃ row col token self',
    game_ply draw self = Ok (Placed, self')
    ∧ good self'
    ∧ occupied (board self') = S (occupied (board self))
    ∧ moves self' = moves self ++ [token]
    ∧ current_player self' = other (current_player self)
    ∧ has_valid_moves self = Ok true
    ∧ notation_to_coords token = Ok (row, col)
    ∧ make_move self row col = Ok (true, self').
Proof.
  intros [Hwf Hp] Hl1.
  destruct (is_game_over_spec self Hwf Hp) as (l1 & l2 & Hl1' & _ & Hover).
  rewrite Hl1 in Hl1'. injection Hl1' as <-.
  rewrite bool_decide_false in Hover by (by intros []).
  destruct (get_valid_moves_spec self Hwf) as (l1 & Hl1' & Hin).
  rewrite Hl1 in Hl1'. injection Hl1' as <-.
  destruct (choice_spec draw p l) as ([row col] & Hchoice & Hrc).
  apply Hin in Hrc as [Hon Hvalid].
  destruct (make_move_valid self row col Hwf Hp Hon Hvalid)
    as (b & token & Htoken & Hmove & Hwf' & Hocc & _).
  destruct (notation_roundtrip row col Hon) as (token' & Htoken' & Hdecode).
  rewrite Htoken in Htoken'. injection Htoken' as <-.
  eexists row, col, token, _. split; [|split; [|split; [|split; [|split]]]].
  - unfold game_ply. rewrite Hover. cbn [mbind result_bind].
    rewrite Hl1. cbn [mbind result_bind]. rewrite Hchoice.
    cbn [mbind result_bind]. rewrite Hmove. done.
  - split; [done|]. apply other_is_player.
  - done.
  - done.
  - done.
  - split; [|done].
    destruct (has_valid_moves_spec self Hwf) as (l1 & Hl1' & ->).
    rewrite Hl1 in Hl1'. injection Hl1' as <-.
    by rewrite bool_decide_true.
Qed.

(** A turn of a player who has no valid move while the opponent has one:
    the hand passes and nothing else changes. *)
Lemma game_ply_passed draw self p l :
  good self → get_valid_moves self = Ok [] →
  get_valid_moves (switch_player self) = Ok (p :: l) →
  game_ply draw self = Ok (Passed, switch_player self)
  ∧ has_valid_moves self = Ok false.
Proof.
  intros [Hwf Hp] Hl1 Hl2.
  destruct (is_game_over_spec self Hwf Hp) as (l1 & l2 & Hl1' & Hl2' & Hover).
  rewrite Hl1 in Hl1'. injection Hl1' as <-.
  rewrite Hl2 in Hl2'. injection Hl2' as <-.
  rewrite bool_decide_false in Hover by (by intros []).
  split.
  - unfold game_ply. rewrite Hover. cbn [mbind result_bind].
    by rewrite Hl1.
  - destruct (has_valid_moves_spec self Hwf) as (l1 & Hl1' & ->).
    rewrite Hl1 in Hl1'. injection Hl1' as <-.
    by rewrite bool_decide_false by (by intros []).
Qed.

(** A turn in a position where neither player has a valid move. *)
Lemma game_ply_finished draw self :
  good self → get_valid_moves self = Ok [] →
  get_valid_moves (switch_player self) = Ok [] →
  game_ply draw self = Ok (Finished, self)
  ∧ is_game_over self = Ok (true, self).
Proof.
  intros [Hwf Hp] Hl1 Hl2.
  destruct (is_game_over_spec self Hwf Hp) as (l1 & l2 & Hl1' & Hl2' & Hover).
  rewrite Hl1 in Hl1'. injection Hl1' as <-.
  rewrite Hl2 in Hl2'. injection Hl2' as <-.
  rewrite bool_decide_true in Hover by done.
  split; [|done]. unfold game_ply. by rewrite Hover.
Qed.

Ltac next_ply self Hgood l1 l2 Hl1 Hl2 :=
  let H := fresh in
  destruct (get_valid_moves_spec self (proj1 Hgood)) as (l1 & Hl1 & H);
  clear H;
  destruct (get_valid_moves_spec (switch_player self)
              (proj1 (good_switch_player self Hgood))) as (l2 & Hl2 & H);
  clear H.

(** The loop ends.  With [n] bounding the number of empty cells, [2n + 1]
    turns are enough, at most [n] moves are recorded, and the position
    reached is one where the game is over. *)
Lemma game_loop_terminates n :
  ∀ self fuel rnd k,
    good self → (64 ≤ occupied (board self) + n)%nat →
    (2 * n + 1 ≤ fuel)%nat →
    ∃ final, game_loop fuel rnd k self = Ok final
      ∧ good final
      ∧ (length (moves final) ≤ length (moves self) + n)%nat
      ∧ is_game_over final = Ok (true, final).
Proof.
  induction n as [n IH] using lt_wf_ind.
  intros self fuel rnd k Hgood Hocc Hfuel.
  destruct fuel as [|fuel]; [lia|]. cbn [game_loop].
  next_ply self Hgood l1 l2 Hl1 Hl2.
  destruct l1 as [|p1 l1]; [destruct l2 as [|p2 l2]|].
  - destruct (game_ply_finished (rnd k) self Hgood Hl1 Hl2) as [-> Hover].
    cbn [mbind result_bind]. exists self. repeat split; try done; try apply Hgood. lia.
  - destruct (game_ply_passed (rnd k) self p2 l2 Hgood Hl1 Hl2) as [-> _].
    cbn [mbind result_bind].
    pose proof (good_switch_player self Hgood) as Hgood'.
    destruct (game_ply_placed (rnd k) (switch_player self) p2 l2 Hgood' Hl2)
      as (row & col & token & self' & Hply & Hgood'' & Hocc' & Hmoves & _).
    pose proof (occupied_le _ (proj1 Hgood'')) as Hle.
    simpl in Hocc'.
    destruct fuel as [|fuel]; [lia|]. cbn [game_loop]. rewrite Hply.
    cbn [mbind result_bind].
    destruct (IH (n - 1)%nat) with (self := self') (fuel := fuel)
      (rnd := rnd) (k := S k) as (final & -> & Hfinal & Hlen & Hover);
      [lia | done | lia | lia |].
    exists final. repeat split; try done; try apply Hfinal.
    rewrite Hmoves, length_app in Hlen. simpl in Hlen. lia.
  - destruct (game_ply_placed (rnd k) self p1 l1 Hgood Hl1)
      as (row & col & token & self' & -> & Hgood' & Hocc' & Hmoves & _).
    pose proof (occupied_le _ (proj1 Hgood')) as Hle.
    cbn [mbind result_bind].
    destruct (IH (n - 1)%nat) with (self := self') (fuel := fuel)
      (rnd := rnd) (k := S k) as (final & -> & Hfinal & Hlen & Hover);
      [lia | done | lia | lia |].
    exists final. repeat split; try done; try apply Hfinal.
    rewrite Hmoves, length_app in Hlen. simpl in Hlen. lia.
Qed.

(** The tokens that a run records, replayed from the position where the
    run started, lead to the position where the run ended. *)
Lemma game_loop_replay fuel :
  ∀ self rnd k final,
    good self → game_loop fuel rnd k self = Ok final →
    ∃ tokens, moves final = moves self ++ tokens
              ∧ replay tokens self = Ok final.
Proof.
  induction fuel as [fuel IH] using lt_wf_ind.
  intros self rnd k final Hgood Hrun.
  destruct fuel as [|fuel]; [done|]. cbn [game_loop] in Hrun.
  next_ply self Hgood l1 l2 Hl1 Hl2.
  destruct l1 as [|p1 l1]; [destruct l2 as [|p2 l2]|].
  - destruct (game_ply_finished (rnd k) self Hgood Hl1 Hl2) as [Hply _].
    rewrite Hply in Hrun. cbn [mbind result_bind] in Hrun.
    injection Hrun as <-. exists []. by rewrite app_nil_r.
  - destruct (game_ply_passed (rnd k) self p2 l2 Hgood Hl1 Hl2)
      as [Hply Hhas].
    rewrite Hply in Hrun. cbn [mbind result_bind] in Hrun.
    pose proof (good_switch_player self Hgood) as Hgood'.
    destruct (game_ply_placed (rnd k) (switch_player self) p2 l2 Hgood' Hl2)
      as (row & col & token & self' & Hply' & Hgood'' & _ & Hmoves & _
          & _ & Hdecode & Hmove).
    destruct fuel as [|fuel]; [done|]. cbn [game_loop] in Hrun.
    rewrite Hply' in Hrun. cbn [mbind result_bind] in Hrun.
    destruct (IH fuel) with (self := self') (rnd := rnd) (k := S k)
      (final := final) as (tokens & Htokens & Hreplay); [lia|done|done|].
    exists (token :: tokens). split.
    + rewrite Htokens, Hmoves. simpl. by rewrite <- app_assoc.
    + cbn [replay]. rewrite Hhas. cbn [mbind result_bind].
      rewrite Hdecode. cbn [mbind result_bind]. rewrite Hmove. done.
  - destruct (game_ply_placed (rnd k) self p1 l1 Hgood Hl1)
      as (row & col & token & self' & Hply' & Hgood'' & _ & Hmoves & _
          & Hhas & Hdecode & Hmove).
    rewrite Hply' in Hrun. cbn [mbind result_bind] in Hrun.
    destruct (IH fuel) with (self := self') (rnd := rnd) (k := S k)
      (final := final) as (tokens & Htokens & Hreplay); [lia|done|done|].
    exists (token :: tokens). split.
    + rewrite Htokens, Hmoves. by rewrite <- app_assoc.
    + cbn [replay]. rewrite Hhas. cbn [mbind result_bind].
      rewrite Hdecode. cbn [mbind result_bind]. rewrite Hmove. done.
Qed.

Lemma init_new_board : init = Ok new_board.
Proof. reflexivity. Qed.

Lemma new_board_good : good new_board.
Proof. apply (bool_decide_unpack _). by vm_compute. Qed.

Lemma new_board_occupied : occupied (board new_board) = 4%nat.
Proof. reflexivity. Qed.

Lemma game_loop_more_fuel fuel :
  ∀ fuel' rnd k self final,
    game_loop fuel rnd k self = Ok final → (fuel ≤ fuel')%nat →
    game_loop fuel' rnd k self = Ok final.
Proof.
  induction fuel as [|fuel IH]; intros fuel' rnd k self final Hrun Hle;
    [done|].
  destruct fuel' as [|fuel']; [lia|]. cbn [game_loop] in *.
  destruct (game_ply (rnd k) self) as [[outcome self']| |]; [|done..].
  cbn [mbind result_bind] in *.
  destruct outcome; [done | apply IH; [done|lia] ..].
Qed.

(** What a turn of the loop does, in each of its three outcomes. *)
Lemma game_ply_spec draw self :
  good self →
  ∃ outcome self', game_ply draw self = Ok (outcome, self')
    ∧ good self'
    ∧ match outcome with
      | Finished => self' = self
      | Passed => self' = switch_player self
      | Placed =>
          occupied (board self') = S (occupied (board self))
          ∧ current_player self' = other (current_player self)
          ∧ ∃ token, moves self' = moves self ++ [token]
      end.
Proof.
  intros Hgood. next_ply self Hgood l1 l2 Hl1 Hl2.
  destruct l1 as [|p1 l1]; [destruct l2 as [|p2 l2]|].
  - destruct (game_ply_finished draw self Hgood Hl1 Hl2) as [-> _].
    by exists Finished, self.
  - destruct (game_ply_passed draw self p2 l2 Hgood Hl1 Hl2) as [-> _].
    exists Passed, (switch_player self).
    split; [done|]. split; [by apply good_switch_player | done].
  - destruct (game_ply_placed draw self p1 l1 Hgood Hl1)
      as (row & col & token & self' & -> & Hgood' & Hocc & Hmoves & Hcp & _).
    exists Placed, self'. split; [done|]. split; [done|].
    split; [done|]. split; [done|]. by exists token.
Qed.

(** Every position that the loop goes through has a well-formed board and
    a colour to move. *)
Lemma after_turns_good n :
  ∀ rnd k self,
    good self → ∃ self', after_turns n rnd k self = Ok self' ∧ good self'.
Proof.
  induction n as [|n IH]; intros rnd k self Hgood; [by exists self|].
  cbn [after_turns].
  destruct (game_ply_spec (rnd k) self Hgood)
    as (outcome & self' & -> & Hgood' & _).
  cbn [mbind result_bind]. destruct outcome; [by exists self' | by apply IH..].
Qed.

(** ** The claims *)

(** C1.  On a well-formed board with a colour to move, for a cell of the
    board that is empty, [is_valid_move] returns, and it returns [True]
    if and only if at least one of the 8 directions captures in the sense
    of the specification: a run of one or more opponent cells on the board,
    starting at the adjacent cell and immediately followed by an own cell. *)
Theorem is_valid_move_iff_some_direction_captures self row col :
  wf_board (board self) → is_player (current_player self) →
  on_board row col → cell_at (board self) row col = Ok EMPTY →
  ∃ v, is_valid_move self row col = Ok v
    ∧ (v = true ↔
       ∃ dr dc, (dr, dc) ∈ DIRECTIONS ∧ captures self row col dr dc).
Proof.
  intros Hwf Hp Hon Hempty.
  destruct (is_valid_move_on_board self row col Hwf Hp Hon) as (v & Hv & Hiff).
  exists v. split; [done|]. rewrite Hiff.
  rewrite cell_at_on_board in Hempty by done. injection Hempty as Hempty.
  tauto.
Qed.

Lemma is_valid_move_iff_some_direction_captures_witness :
  (wf_board (board new_board) ∧ is_player (current_player new_board)
   ∧ on_board 2 3 ∧ cell_at (board new_board) 2 3 = Ok EMPTY)
  ∧ ∃ v, is_valid_move new_board 2 3 = Ok v
      ∧ (v = true ↔
         ∃ dr dc, (dr, dc) ∈ DIRECTIONS ∧ captures new_board 2 3 dr dc).
Proof.
  assert (wf_board (board new_board)) as H1
    by (apply (bool_decide_unpack _); vm_compute; exact I).
  assert (is_player (current_player new_board)) as H2
    by (apply (bool_decide_unpack _); vm_compute; exact I).
  assert (on_board 2 3) as H3
    by (apply (bool_decide_unpack _); vm_compute; exact I).
  assert (cell_at (board new_board) 2 3 = Ok EMPTY) as H4
    by (vm_compute; reflexivity).
  split; [done|].
  exact (is_valid_move_iff_some_direction_captures new_board 2 3 H1 H2 H3 H4).
Defined.

Lemma make_move_cells self row col :
  good self → on_board row col → is_valid_move self row col = Ok true →
  ∃ self', make_move self row col = Ok (true, self') ∧ good self'
    ∧ occupied (board self') = S (occupied (board self))
    ∧ cell_at (board self) row col = Ok EMPTY
    ∧ cell_at (board self') row col = Ok (current_player self)
    ∧ ∀ r c, on_board r c → r ≠ row ∨ c ≠ col →
        cell_at (board self') r c = cell_at (board self) r c
        ∨ (cell_at (board self) r c = Ok (other (current_player self))
           ∧ cell_at (board self') r c = Ok (current_player self)).
Proof.
  intros [Hwf Hp] Hon Hvalid.
  destruct (make_move_valid self row col Hwf Hp Hon Hvalid)
    as (b & token & _ & Hmove & Hwf' & Hocc & Hempty & Hplaced & Hcells).
  eexists. split; [exact Hmove|]. cbn [board current_player].
  split; [split; [done | apply other_is_player]|].
  split; [done|]. rewrite !cell_at_on_board by done.
  split; [by f_equal|]. split; [by f_equal|].
  intros r c Hrc Hdiff. rewrite !cell_at_on_board by done.
  destruct (Hcells r c Hrc Hdiff) as [-> | [-> ->]]; auto.
Qed.

(** C2.  In a position with a well-formed board and a colour to move (every
    position of a game is one), a legal move on a cell of the board is
    applied and raises the number of occupied cells by exactly one: the
    cell played was empty and now holds the player's colour, and any other
    cell that changes held the opponent's colour and now holds the
    player's.  Hence no turn of the game loop lowers the number of
    occupied cells. *)
Theorem make_move_adds_exactly_one_piece self :
  good self →
  (∀ row col, on_board row col → is_valid_move self row col = Ok true →
     ∃ self', make_move self row col = Ok (true, self') ∧ good self'
       ∧ occupied (board self') = S (occupied (board self))
       ∧ cell_at (board self) row col = Ok EMPTY
       ∧ cell_at (board self') row col = Ok (current_player self)
       ∧ ∀ r c, on_board r c → r ≠ row ∨ c ≠ col →
           cell_at (board self') r c = cell_at (board self) r c
           ∨ (cell_at (board self) r c = Ok (other (current_player self))
              ∧ cell_at (board self') r c = Ok (current_player self)))
  ∧ (∀ draw, ∃ outcome self',
       game_ply draw self = Ok (outcome, self') ∧ good self'
       ∧ (occupied (board self) ≤ occupied (board self'))%nat).
Proof.
  intros Hgood. split.
  - intros row col. by apply make_move_cells.
  - intros draw.
    destruct (game_ply_spec draw self Hgood)
      as (outcome & self' & Hply & Hgood' & Hout).
    exists outcome, self'. split; [done|]. split; [done|].
    destruct outcome; [by subst | by subst | destruct Hout as [-> _]; lia].
Qed.

Lemma make_move_adds_exactly_one_piece_witness :
  (good new_board ∧ on_board 2 3 ∧ is_valid_move new_board 2 3 = Ok true)
  ∧ (∃ self', make_move new_board 2 3 = Ok (true, self') ∧ good self'
       ∧ occupied (board self') = S (occupied (board new_board))
       ∧ cell_at (board new_board) 2 3 = Ok EMPTY
       ∧ cell_at (board self') 2 3 = Ok (current_player new_board)
       ∧ ∀ r c, on_board r c → r ≠ 2 ∨ c ≠ 3 →
           cell_at (board self') r c = cell_at (board new_board) r c
           ∨ (cell_at (board new_board) r c
              = Ok (other (current_player new_board))
              ∧ cell_at (board self') r c = Ok (current_player new_board)))
  ∧ (∀ draw, ∃ outcome self',
       game_ply draw new_board = Ok (outcome, self') ∧ good self'
       ∧ (occupied (board new_board) ≤ occupied (board self'))%nat).
Proof.
  assert (good new_board) as H1
    by (apply (bool_decide_unpack _); vm_compute; exact I).
  assert (on_board 2 3) as H2
    by (apply (bool_decide_unpack _); vm_compute; exact I).
  assert (is_valid_move new_board 2 3 = Ok true) as H3
    by (vm_compute; reflexivity).
  split; [done|]. split.
  - exact (proj1 (make_move_adds_exactly_one_piece new_board H1) 2 3 H2 H3).
  - exact (proj2 (make_move_adds_exactly_one_piece new_board H1)).
Defined.

(** C3, as the code has it.  The hand goes to the other colour after every
    applied move and also after a pass: the pass turn of the loop calls
    [switch_player], which changes [current_player] and nothing else.  Only
    the turn that finds the game over leaves the position as it is. *)
Theorem player_toggles_after_move_and_after_pass self :
  good self →
  (∀ row col self',
     make_move self row col = Ok (true, self') →
     current_player self' = other (current_player self)
     ∧ current_player self' ≠ current_player self)
  ∧ (∀ draw, ∃ outcome self',
       game_ply draw self = Ok (outcome, self')
       ∧ match outcome with
         | Finished => self' = self
         | Passed =>
             current_player self' = other (current_player self)
             ∧ current_player self' ≠ current_player self
             ∧ board self' = board self ∧ moves self' = moves self
         | Placed =>
             current_player self' = other (current_player self)
             ∧ current_player self' ≠ current_player self
         end).
Proof.
  intros Hgood. split.
  - intros row col self' Hmove. unfold make_move in Hmove.
    destruct (is_valid_move self row col) as [[|]| |];
      cbn [mbind result_bind negb] in Hmove; try done.
    destruct (set_cell _ _ _ _) as [b1| |];
      cbn [mbind result_bind] in Hmove; try done.
    destruct (flip_dirs _ _ _ _ _ _) as [b2| |];
      cbn [mbind result_bind] in Hmove; try done.
    destruct (coords_to_notation _ _) as [token| |];
      cbn [mbind result_bind] in Hmove; try done.
    injection Hmove as <-. cbn [current_player].
    split; [done | apply other_neq].
  - intros draw.
    destruct (game_ply_spec draw self Hgood)
      as (outcome & self' & Hply & _ & Hout).
    exists outcome, self'. split; [done|].
    destruct outcome.
    + done.
    + subst self'. cbn [switch_player current_player board moves].
      split; [done|]. split; [apply other_neq | done].
    + destruct Hout as (_ & -> & _). split; [done | apply other_neq].
Qed.

Lemma player_toggles_after_move_and_after_pass_witness :
  good pass_position
  ∧ ((∀ row col self',
        make_move pass_position row col = Ok (true, self') →
        current_player self' = other (current_player pass_position)
        ∧ current_player self' ≠ current_player pass_position)
     ∧ (∀ draw, ∃ outcome self',
          game_ply draw pass_position = Ok (outcome, self')
          ∧ match outcome with
            | Finished => self' = pass_position
            | Passed =>
                current_player self' = other (current_player pass_position)
                ∧ current_player self' ≠ current_player pass_position
                ∧ board self' = board pass_position
                ∧ moves self' = moves pass_position
            | Placed =>
                current_player self' = other (current_player pass_position)
                ∧ current_player self' ≠ current_player pass_position
            end)).
Proof.
  assert (good pass_position) as H
    by (apply (bool_decide_unpack _); vm_compute; exact I).
  split; [exact H|].
  exact (player_toggles_after_move_and_after_pass pass_position H).
Defined.

(** C3, as stated, fails.  In the run that always draws 0, Black is to move
    after 18 turns and has no valid move while White has one: the turn is
    a pass, and after it [current_player] is White, not Black. *)
Lemma pass_changes_current_player :
  (b ← init; after_turns 18 (λ _, 0%nat) 0 b) = Ok pass_position
  ∧ get_valid_moves pass_position = Ok []
  ∧ game_ply 0 pass_position = Ok (Passed, switch_player pass_position)
  ∧ current_player pass_position = BLACK
  ∧ current_player (switch_player pass_position) = WHITE
  ∧ current_player (switch_player pass_position)
    ≠ current_player pass_position.
Proof. repeat split; try (vm_compute; reflexivity). discriminate. Qed.

Lemma no_valid_moves_iff self l :
  wf_board (board self) → get_valid_moves self = Ok l →
  l = [] ↔ ∀ r c, on_board r c → is_valid_move self r c = Ok false.
Proof.
  intros Hwf Hl. destruct (get_valid_moves_spec self Hwf) as (l' & Hl' & Hin).
  rewrite Hl in Hl'. injection Hl' as <-. split.
  - intros -> r c [Hr Hc].
    destruct (is_valid_move_spec self r c Hwf) as (v & Hv & _);
      [unfold SIZE in *; lia..|].
    destruct v; [|done].
    assert ((r, c) ∈ @nil (Z * Z)) as Habs by (by apply Hin).
    by apply elem_of_nil in Habs.
  - intros Hnone. destruct l as [|[r c] l]; [done|].
    assert ((r, c) ∈ (r, c) :: l) as Hrc by left.
    apply Hin in Hrc as [Hon Hvalid]. rewrite (Hnone r c Hon) in Hvalid.
    done.
Qed.

(** C4.  In a position with a well-formed board and a colour to move,
    [is_game_over] returns [True] if and only if [is_valid_move] is false
    on every cell of the board both for the current player and for the
    opponent, and the position it leaves is the position it was given:
    board, [current_player] and move list are those before the call. *)
Theorem is_game_over_iff_nobody_can_move_and_restores self :
  good self →
  ∃ over, is_game_over self = Ok (over, self)
    ∧ (over = true ↔
       ∀ row col, on_board row col →
         is_valid_move self row col = Ok false
         ∧ is_valid_move (switch_player self) row col = Ok false).
Proof.
  intros [Hwf Hp].
  destruct (is_game_over_spec self Hwf Hp) as (l1 & l2 & Hl1 & Hl2 & Hover).
  eexists. split; [exact Hover|]. rewrite bool_decide_eq_true.
  rewrite (no_valid_moves_iff self l1 Hwf Hl1).
  rewrite (no_valid_moves_iff (switch_player self) l2 Hwf Hl2).
  split.
  - intros [H1 H2] row col Hon. split; [exact (H1 row col Hon) | exact (H2 row col Hon)].
  - intros H. split; intros row col Hon;
      destruct (H row col Hon) as [H1 H2]; assumption.
Qed.

Lemma is_game_over_iff_nobody_can_move_and_restores_witness :
  good pass_position
  ∧ ∃ over, is_game_over pass_position = Ok (over, pass_position)
      ∧ (over = true ↔
         ∀ row col, on_board row col →
           is_valid_move pass_position row col = Ok false
           ∧ is_valid_move (switch_player pass_position) row col = Ok false).
Proof.
  assert (good pass_position) as H
    by (apply (bool_decide_unpack _); vm_compute; exact I).
  split; [exact H|].
  exact (is_game_over_iff_nobody_can_move_and_restores pass_position H).
Defined.

(** C5.  When a run of the game loop from the fresh board ends in a
    position [final], replaying the tokens it recorded from a fresh board
    (passing whenever the player to move has no valid move, then decoding
    the token and applying it with [make_move]) ends in the same position:
    same board, hence same number of occupied cells, same player to move
    and same move list. *)
Theorem replay_reproduces_final_position fuel rnd final :
  (b ← init; game_loop fuel rnd 0 b) = Ok final →
  ∃ replayed, (b ← init; replay (get_moves_notation final) b) = Ok replayed
    ∧ board replayed = board final
    ∧ occupied (board replayed) = occupied (board final)
    ∧ replayed = final.
Proof.
  rewrite init_new_board. cbn [mbind result_bind]. intros Hrun.
  destruct (game_loop_replay fuel new_board rnd 0%nat final new_board_good Hrun)
    as (tokens & Htokens & Hreplay).
  simpl in Htokens. unfold get_moves_notation. rewrite Htokens.
  by exists final.
Qed.

Lemma replay_reproduces_final_position_witness :
  (b ← init; game_loop GAME_FUEL (λ _, 0%nat) 0 b) = Ok first_move_game_end
  ∧ ∃ replayed,
      (b ← init; replay (get_moves_notation first_move_game_end) b)
      = Ok replayed
      ∧ board replayed = board first_move_game_end
      ∧ occupied (board replayed) = occupied (board first_move_game_end)
      ∧ replayed = first_move_game_end.
Proof.
  assert ((b ← init; game_loop GAME_FUEL (λ _, 0%nat) 0 b)
          = Ok first_move_game_end) as H by (vm_compute; reflexivity).
  split; [exact H|].
  exact (replay_reproduces_final_position GAME_FUEL (λ _, 0%nat)
           first_move_game_end H).
Defined.

(** C6.  On the board that [__init__] builds, [get_valid_moves] returns
    the four cells (2,3), (3,2), (4,5), (5,4) and no other, and their
    tokens are d3, c4, f5 and e6. *)
Theorem opening_moves :
  (self ← init; get_valid_moves self) = Ok [(2, 3); (3, 2); (4, 5); (5, 4)]
  ∧ coords_to_notation 2 3 = Ok "d3"%string
  ∧ coords_to_notation 3 2 = Ok "c4"%string
  ∧ coords_to_notation 4 5 = Ok "f5"%string
  ∧ coords_to_notation 5 4 = Ok "e6"%string.
Proof. repeat split; vm_compute; reflexivity. Qed.

(** C7.  Round trip of the notation: decoding the token of a cell of the
    board gives the cell back, and encoding the cell that a well-formed
    token (a letter a..h followed by a digit 1..8) decodes to gives the
    token back. *)
Theorem notation_round_trip :
  (∀ row col, on_board row col →
     ∃ token, coords_to_notation row col = Ok token
              ∧ notation_to_coords token = Ok (row, col))
  ∧ (∀ token, well_formed token →
       ∃ row col, notation_to_coords token = Ok (row, col)
                  ∧ coords_to_notation row col = Ok token).
Proof.
  split.
  - apply notation_roundtrip.
  - intros token Hwf.
    destruct (token_roundtrip token Hwf) as (row & col & Hdec & _ & Henc).
    by exists row, col.
Qed.

Lemma notation_round_trip_witness :
  (on_board 2 3
   ∧ ∃ token, coords_to_notation 2 3 = Ok token
              ∧ notation_to_coords token = Ok (2, 3))
  ∧ (well_formed "d3"
     ∧ ∃ row col, notation_to_coords "d3" = Ok (row, col)
                  ∧ coords_to_notation row col = Ok "d3"%string).
Proof.
  assert (on_board 2 3) as H1
    by (apply (bool_decide_unpack _); vm_compute; exact I).
  assert (well_formed "d3") as H2 by (vm_compute; intuition discriminate).
  split.
  - split; [exact H1|]. exact (proj1 notation_round_trip 2 3 H1).
  - split; [exact H2|]. exact (proj2 notation_round_trip "d3"%string H2).
Defined.

(** C8.  Every run of the game loop from the fresh board ends, whatever
    numbers are drawn: 121 turns are enough (and more change nothing), and
    at most 60 moves were recorded.  The position reached is terminal: its
    board is well formed, a colour is to move, [is_game_over] answers
    [True] there, and [is_valid_move] is false on every cell of the board
    both for the player to move and for the opponent. *)
Theorem generate_game_terminates_within_60_moves rnd :
  ∃ final,
    (∀ fuel, (GAME_FUEL ≤ fuel)%nat →
       (b ← init; game_loop fuel rnd 0 b) = Ok final
       ∧ generate_game fuel rnd = Ok (get_moves_notation final))
    ∧ good final
    ∧ is_game_over final = Ok (true, final)
    ∧ (∀ row col, on_board row col →
         is_valid_move final row col = Ok false
         ∧ is_valid_move (switch_player final) row col = Ok false)
    ∧ (length (get_moves_notation final) ≤ 60)%nat.
Proof.
  destruct (game_loop_terminates 60 new_board GAME_FUEL rnd 0%nat)
    as (final & Hrun & Hgood & Hlen & Hover).
  { apply new_board_good. }
  { rewrite new_board_occupied. lia. }
  { unfold GAME_FUEL. lia. }
  exists final. split; [|split; [exact Hgood|split; [exact Hover|split]]].
  - intros fuel Hfuel.
    pose proof (game_loop_more_fuel _ fuel _ _ _ _ Hrun Hfuel) as Hrun'.
    unfold generate_game. rewrite init_new_board. cbn [mbind result_bind].
    rewrite Hrun'. cbn [mbind result_bind]. split; reflexivity.
  - pose proof Hgood as [Hwf Hp].
    destruct (is_game_over_spec final Hwf Hp) as (l1 & l2 & Hl1 & Hl2 & Hspec).
    rewrite Hover in Hspec. injection Hspec as Hboth.
    symmetry in Hboth. apply bool_decide_eq_true in Hboth as [H1 H2].
    intros row col Hon. split.
    + exact (proj1 (no_valid_moves_iff final l1 Hwf Hl1) H1 row col Hon).
    + exact (proj1 (no_valid_moves_iff (switch_player final) l2 Hwf Hl2)
               H2 row col Hon).
  - exact Hlen.
Qed.

(** C9.  When [is_valid_move] is false for a cell, [make_move] returns
    [False] and the position is the one before the call: no cell is
    written, the player to move is the same and no token is recorded. *)
Theorem make_move_rejects_invalid_move_unchanged self row col :
  is_valid_move self row col = Ok false →
  make_move self row col = Ok (false, self).
Proof. intros Hvalid. unfold make_move. by rewrite Hvalid. Qed.

Lemma make_move_rejects_invalid_move_unchanged_witness :
  is_valid_move new_board 0 0 = Ok false
  ∧ make_move new_board 0 0 = Ok (false, new_board).
Proof.
  assert (is_valid_move new_board 0 0 = Ok false) as H
    by (vm_compute; reflexivity).
  split; [exact H|].
  exact (make_move_rejects_invalid_move_unchanged new_board 0 0 H).
Defined.

(** C10.  [is_valid_move] does not reject a negative coordinate: on a
    well-formed board, with a row or a column in [-8, -1] and the other
    coordinate in [-8, 8), it returns a boolean.  The cell it tests for
    emptiness is the one counted from the opposite edge, while the
    directional scan starts from the coordinates as given. *)
Theorem is_valid_move_accepts_negative_coordinates self row col :
  wf_board (board self) →
  - SIZE ≤ row < SIZE → - SIZE ≤ col < SIZE → row < 0 ∨ col < 0 →
  ∃ v, is_valid_move self row col = Ok v
    ∧ cell_at (board self) row col
      = cell_at (board self) (row `mod` SIZE) (col `mod` SIZE)
    ∧ (v = true →
       cell_at (board self) (row `mod` SIZE) (col `mod` SIZE) = Ok EMPTY).
Proof.
  intros Hwf Hr Hc _.
  destruct (is_valid_move_spec self row col Hwf Hr Hc) as (v & Hv & Hempty & _).
  assert (on_board (row `mod` SIZE) (col `mod` SIZE)) as Hon.
  { unfold on_board, SIZE. split; apply Z.mod_pos_bound; lia. }
  exists v. split; [done|].
  rewrite (cell_at_wrap _ row col) by done.
  rewrite (cell_at_on_board _ (row `mod` SIZE)) by done.
  split; [done|]. intros Hv'. by rewrite Hempty.
Qed.

Lemma is_valid_move_accepts_negative_coordinates_witness :
  (wf_board (board pass_position)
   ∧ - SIZE ≤ -1 < SIZE ∧ - SIZE ≤ 4 < SIZE ∧ (-1 < 0 ∨ 4 < 0))
  ∧ ∃ v, is_valid_move pass_position (-1) 4 = Ok v
      ∧ cell_at (board pass_position) (-1) 4
        = cell_at (board pass_position) (-1 `mod` SIZE) (4 `mod` SIZE)
      ∧ (v = true →
         cell_at (board pass_position) (-1 `mod` SIZE) (4 `mod` SIZE)
         = Ok EMPTY).
Proof.
  assert (wf_board (board pass_position)) as H1
    by (apply (bool_decide_unpack _); vm_compute; exact I).
  assert (- SIZE ≤ -1 < SIZE) as H2 by (unfold SIZE; lia).
  assert (- SIZE ≤ 4 < SIZE) as H3 by (unfold SIZE; lia).
  assert (-1 < 0 ∨ 4 < 0) as H4 by lia.
  split; [done|].
  exact (is_valid_move_accepts_negative_coordinates pass_position (-1) 4
           H1 H2 H3 H4).
Defined.

(** A negative row gives a verdict about another cell: in the position
    where Black has no valid move, row [-1] designates row 7 for the
    emptiness test but the scan starts from row 0, and the answer is
    [True] although the move on row 7 is not valid. *)
Example negative_row_verdict :
  is_valid_move pass_position (-1) 4 = Ok true
  ∧ is_valid_move pass_position 7 4 = Ok false.
Proof. split; vm_compute; reflexivity. Qed.

(** * Further properties of the code *)

(** ** What a move changes, cell by cell *)

Lemma elem_of_ray_cells dr dc r c n p :
  p ∈ ray_cells dr dc r c n ↔
  ∃ i : nat, (i < n)%nat ∧ p = (r + Z.of_nat i * dr, c + Z.of_nat i * dc).
Proof.
  revert r c. induction n as [|n IH]; intros r c; simpl.
  - split; [by intros ?%elem_of_nil | intros (i & Hi & _); lia].
  - rewrite elem_of_cons, IH. split.
    + intros [-> | (i & Hi & ->)].
      * exists 0%nat. split; [lia|]. f_equal; lia.
      * exists (S i). split; [lia|]. f_equal; lia.
    + intros ([|i] & Hi & ->).
      * left. f_equal; lia.
      * right. exists i. split; [lia|]. f_equal; lia.
Qed.

Lemma run_then_own_on_board b player opponent dr dc r c n :
  run_then_own b player opponent dr dc r c n →
  Forall (λ p, on_board p.1 p.2) (ray_cells dr dc r c n).
Proof.
  revert r c. induction n as [|n IH]; intros r c; simpl; [constructor|].
  intros [[Hon _] Hrun]. constructor; [done | by apply IH].
Qed.

Lemma run_then_own_unique b player opponent dr dc r c n m :
  wf_board b → player ≠ opponent →
  run_then_own b player opponent dr dc r c n →
  run_then_own b player opponent dr dc r c m → n = m.
Proof.
  intros Hwf Hne. revert r c m. induction n as [|n IH]; intros r c [|m]; simpl.
  - done.
  - intros H1 [H2 _]. apply held_by_peek in H1 as [_ H1]; [|done].
    apply held_by_peek in H2 as [_ H2]; [|done]. congruence.
  - intros [H1 _] H2. apply held_by_peek in H1 as [_ H1]; [|done].
    apply held_by_peek in H2 as [_ H2]; [|done]. congruence.
  - intros [_ H1] [_ H2]. f_equal. by eapply IH.
Qed.

(** A run depends only on the cells of its ray. *)
Lemma run_then_own_ext b b' player opponent dr dc r c n :
  wf_board b → wf_board b' →
  (∀ i : nat, on_board (r + Z.of_nat i * dr) (c + Z.of_nat i * dc) →
     peek b' (r + Z.of_nat i * dr) (c + Z.of_nat i * dc)
     = peek b (r + Z.of_nat i * dr) (c + Z.of_nat i * dc)) →
  run_then_own b player opponent dr dc r c n →
  run_then_own b' player opponent dr dc r c n.
Proof.
  intros Hwf Hwf'. revert r c. induction n as [|n IH]; intros r c Hsame; simpl.
  - intros [Hon H]%held_by_peek; [|done]. apply held_by_peek; [done|].
    split; [done|]. specialize (Hsame 0%nat).
    replace (r + Z.of_nat 0 * dr) with r in Hsame by lia.
    replace (c + Z.of_nat 0 * dc) with c in Hsame by lia.
    by rewrite Hsame.
  - intros [[Hon H]%held_by_peek Hrun]; [|done]. split.
    + apply held_by_peek; [done|]. split; [done|]. specialize (Hsame 0%nat).
      replace (r + Z.of_nat 0 * dr) with r in Hsame by lia.
      replace (c + Z.of_nat 0 * dc) with c in Hsame by lia.
      by rewrite Hsame.
    + apply IH; [|done]. intros i. specialize (Hsame (S i)).
      replace (r + Z.of_nat (S i) * dr) with (r + dr + Z.of_nat i * dr)
        in Hsame by lia.
      by replace (c + Z.of_nat (S i) * dc) with (c + dc + Z.of_nat i * dc)
        in Hsame by lia.
Qed.

(** What the walk of [make_move] collects, exactly. *)
Lemma flip_walk_exact b player dr dc :
  wf_board b → is_player player → (dr, dc) ∈ DIRECTIONS →
  ∀ fuel r c to_flip,
    (0 < fuel)%nat → (on_board r c → room dr dc r c < Z.of_nat fuel) →
    (¬ held_by b (other player) r c →
     flip_walk fuel b player (other player) dr dc r c to_flip = Ok to_flip)
    ∧ (held_by b (other player) r c →
       (∀ n, run_then_own b player (other player) dr dc (r + dr) (c + dc) n →
          flip_walk fuel b player (other player) dr dc r c to_flip
          = Ok (to_flip ++ ray_cells dr dc r c (S n)))
       ∧ ((¬ ∃ n, run_then_own b player (other player) dr dc
                    (r + dr) (c + dc) n) →
          flip_walk fuel b player (other player) dr dc r c to_flip = Ok [])).
Proof.
  intros Hwf Hp Hdir. induction fuel as [|fuel IH];
    intros r c to_flip Hpos Hroom; [lia|].
  cbn [flip_walk].
  destruct (opponent_at_spec b (other player) r c Hwf) as (v & -> & Hv).
  cbn [mbind result_bind]. destruct v.
  - destruct Hv as [Hv _]. destruct (Hv eq_refl) as [Hon Hopp].
    split; [intros Hno; destruct Hno; by apply held_by_peek|]. intros _.
    destruct (room_step dr dc r c Hdir Hon) as [Hr1 Hr2].
    specialize (Hroom Hon).
    destruct (in_range (r + dr) (c + dc)) eqn:Hin; cbn [negb].
    + apply in_range_true in Hin. rewrite cell_at_on_board by done.
      cbn [mbind result_bind].
      case_bool_decide as Hempty; [|case_bool_decide as Hown].
      * split; [|done]. intros [|n] Hn; simpl in Hn;
          [|destruct Hn as [Hn _]];
          apply held_by_peek in Hn as [_ Hn]; try done.
        -- apply is_player_not_empty in Hp. congruence.
        -- pose proof (other_not_empty player). congruence.
      * split.
        -- intros [|n] Hn; simpl in Hn; [done|]. destruct Hn as [Hn _].
           apply held_by_peek in Hn as [_ Hn]; [|done].
           pose proof (other_neq player). congruence.
        -- intros Hno. destruct Hno. exists 0%nat. by apply held_by_peek.
      * assert (held_by b (other player) (r + dr) (c + dc)) as Hnext.
        { apply held_by_peek; [done|]. split; [done|]. by apply third_colour. }
        destruct (IH (r + dr) (c + dc) (to_flip ++ [(r, c)]))
          as [_ Hrec]; [lia | intros _; lia |].
        destruct (Hrec Hnext) as [Hyes Hno]. split.
        -- intros [|n] Hn; simpl in Hn.
           ++ apply held_by_peek in Hn as [_ Hn]; done.
           ++ destruct Hn as [_ Hn]. rewrite (Hyes n Hn).
              by rewrite <- app_assoc.
        -- intros Hnone. apply Hno. intros [n Hn]. apply Hnone.
           exists (S n). by split.
    + apply in_range_false in Hin. split; [|done].
      intros [|n] Hn; simpl in Hn; [|destruct Hn as [Hn _]]; by destruct Hn.
  - split; [done|]. intros Hheld. apply held_by_peek in Hheld; [|done].
    destruct Hv as [_ Hv]. by specialize (Hv Hheld).
Qed.

Lemma flip_cells_exact player to_flip :
  Forall (λ p, on_board p.1 p.2) to_flip →
  ∀ b, wf_board b →
  ∃ b', flip_cells b player to_flip = Ok b' ∧ wf_board b'
    ∧ ∀ r c, on_board r c →
        ((r, c) ∈ to_flip → peek b' r c = player)
        ∧ ((r, c) ∉ to_flip → peek b' r c = peek b r c).
Proof.
  induction 1 as [|[r0 c0] to_flip Hon _ IH]; intros b Hwf.
  - exists b. split; [done|]. split; [done|]. intros r c _.
    split; [by intros ?%elem_of_nil | done].
  - simpl in Hon. cbn [flip_cells].
    destruct (set_cell_on_board b r0 c0 player Hwf Hon)
      as (b1 & -> & Hwf1 & Hpeek1 & _).
    cbn [mbind result_bind].
    destruct (IH b1 Hwf1) as (b' & -> & Hwf' & Hpeek').
    exists b'. split; [done|]. split; [done|]. intros r c Hrc.
    destruct (Hpeek' r c Hrc) as [Hin Hout].
    destruct (decide ((r, c) ∈ to_flip)) as [Hmem|Hmem].
    + split; [by intros _; apply Hin|].
      intros Hno. destruct Hno. by right.
    + rewrite (Hout Hmem), (Hpeek1 r c Hrc). split.
      * intros [Heq|?]%elem_of_cons; [|done]. injection Heq as -> ->.
        by rewrite decide_True.
      * intros Hno. rewrite decide_False; [done|]. intros [-> ->].
        apply Hno. by left.
Qed.

(** Two different directions meet only at their origin. *)
Lemma rays_disjoint dr dc dr' dc' (i j : nat) row col :
  (dr, dc) ∈ DIRECTIONS → (dr', dc') ∈ DIRECTIONS → (dr, dc) ≠ (dr', dc') →
  (1 ≤ i)%nat → (1 ≤ j)%nat →
  (row + Z.of_nat i * dr, col + Z.of_nat i * dc)
  ≠ (row + Z.of_nat j * dr', col + Z.of_nat j * dc').
Proof.
  intros Hd Hd' Hne Hi Hj Heq. injection Heq as H1 H2.
  each_direction Hd; each_direction Hd'; try done; lia.
Qed.

Lemma ray_misses_origin dr dc (i : nat) row col :
  (dr, dc) ∈ DIRECTIONS → (1 ≤ i)%nat →
  (row + Z.of_nat i * dr, col + Z.of_nat i * dc) ≠ (row, col).
Proof.
  intros Hd Hi Heq. injection Heq as H1 H2. each_direction Hd; lia.
Qed.

Lemma classic_held b p r c :
  wf_board b → held_by b p r c ∨ ¬ held_by b p r c.
Proof.
  intros Hwf. destruct (decide (on_board r c ∧ peek b r c = p)) as [H|H].
  - left. by apply held_by_peek.
  - right. intros H'. apply H. by apply held_by_peek.
Qed.

Lemma classic_run b player dr dc r c :
  wf_board b → is_player player → (dr, dc) ∈ DIRECTIONS →
  (∃ n, run_then_own b player (other player) dr dc r c n)
  ∨ ¬ (∃ n, run_then_own b player (other player) dr dc r c n).
Proof.
  intros Hwf Hp Hdir.
  destruct (valid_walk_spec (mkBoard b player []) dr dc Hwf Hdir WALK_FUEL r c)
    as (found & _ & Hiff).
  { unfold WALK_FUEL, SIZE. lia. }
  { intros Hon. destruct (room_step dr dc _ _ Hdir Hon) as [Hr _].
    unfold WALK_FUEL, SIZE in *. lia. }
  specialize (Hiff Hp). simpl in Hiff.
  destruct found; [left; by apply Hiff | right].
  intros Hn. by apply Hiff in Hn.
Qed.

Lemma classic_taken_one b player row col d p :
  wf_board b → is_player player → d ∈ DIRECTIONS →
  taken b player row col d p ∨ ¬ taken b player row col d p.
Proof.
  intros Hwf Hp Hdir. destruct d as [dr dc].
  destruct (classic_run b player dr dc (row + dr) (col + dc) Hwf Hp Hdir)
    as [[n Hn]|Hnone].
  - destruct (decide (p ∈ ray_cells dr dc (row + dr) (col + dc) n))
      as [Hin|Hout].
    + left. by exists n.
    + right. intros (m & Hm & Hin). simpl in Hm, Hin.
      assert (m = n) as ->; [|done].
      eapply run_then_own_unique; try done. apply not_eq_sym, other_neq.
  - right. intros (m & Hm & _). apply Hnone. by exists m.
Qed.

Lemma classic_taken b player row col dirs p :
  wf_board b → is_player player → dirs ⊆ DIRECTIONS →
  (∃ d, d ∈ dirs ∧ taken b player row col d p)
  ∨ ¬ (∃ d, d ∈ dirs ∧ taken b player row col d p).
Proof.
  intros Hwf Hp. induction dirs as [|d dirs IH]; intros Hsub.
  - right. intros (d & Hd & _). by apply elem_of_nil in Hd.
  - destruct (classic_taken_one b player row col d p Hwf Hp) as [Hd|Hd].
    { apply Hsub. by left. }
    + left. exists d. split; [by left | done].
    + destruct IH as [(d' & Hd' & Ht)|Hrest].
      { intros d' Hd'. apply Hsub. by right. }
      * left. exists d'. split; [by right | done].
      * right. intros (d' & [->|Hd']%elem_of_cons & Ht); [done|].
        apply Hrest. by exists d'.
Qed.

(** The loop over the directions of [make_move], exactly: a cell ends up
    with the player's colour when some direction takes it, and keeps its
    content otherwise.  [b1] is the board when the loop starts, [b] the
    board when the directions [dirs] are still to do. *)
Lemma flip_dirs_exact b1 player row col dirs :
  wf_board b1 → is_player player →
  NoDup dirs → dirs ⊆ DIRECTIONS →
  ∀ b, wf_board b →
    (∀ d (i : nat), d ∈ dirs → (1 ≤ i)%nat →
       on_board (row + Z.of_nat i * d.1) (col + Z.of_nat i * d.2) →
       peek b (row + Z.of_nat i * d.1) (col + Z.of_nat i * d.2)
       = peek b1 (row + Z.of_nat i * d.1) (col + Z.of_nat i * d.2)) →
    ∃ b', flip_dirs b player (other player) row col dirs = Ok b'
      ∧ wf_board b'
      ∧ ∀ r c, on_board r c →
          ((∃ d, d ∈ dirs ∧ taken b1 player row col d (r, c)) →
           peek b' r c = player)
          ∧ ((¬ ∃ d, d ∈ dirs ∧ taken b1 player row col d (r, c)) →
             peek b' r c = peek b r c).
Proof.
  intros Hwf1 Hp. induction dirs as [|[dr dc] dirs IH];
    intros Hnodup Hsub b Hwf Hrays.
  - exists b. split; [done|]. split; [done|]. intros r c _. split; [|done].
    intros (d & Hd & _). by apply elem_of_nil in Hd.
  - assert ((dr, dc) ∈ DIRECTIONS) as Hdir by (apply Hsub; left).
    apply NoDup_cons in Hnodup as [Hfresh Hnodup].
    assert (dirs ⊆ DIRECTIONS) as Hsub' by (intros d Hd; apply Hsub; by right).
    (* along this direction [b] and [b1] show the same run *)
    assert (∀ k, run_then_own b1 player (other player) dr dc
                   (row + dr) (col + dc) k ↔
                 run_then_own b player (other player) dr dc
                   (row + dr) (col + dc) k) as Hrun.
    { intros k. split; apply run_then_own_ext; try done; intros i Hon.
      - specialize (Hrays (dr, dc) (S i)). simpl in Hrays.
        replace (row + dr + Z.of_nat i * dr)
          with (row + Z.of_nat (S i) * dr) in * by lia.
        replace (col + dc + Z.of_nat i * dc)
          with (col + Z.of_nat (S i) * dc) in * by lia.
        apply Hrays; [by left | lia | done].
      - specialize (Hrays (dr, dc) (S i)). simpl in Hrays.
        replace (row + dr + Z.of_nat i * dr)
          with (row + Z.of_nat (S i) * dr) in * by lia.
        replace (col + dc + Z.of_nat i * dc)
          with (col + Z.of_nat (S i) * dc) in * by lia.
        symmetry. apply Hrays; [by left | lia | done]. }
    (* the cells collected in this direction *)
    assert (∃ l, flip_walk WALK_FUEL b player (other player) dr dc
                   (row + dr) (col + dc) [] = Ok l
                 ∧ Forall (λ p, on_board p.1 p.2) l
                 ∧ ∀ p, p ∈ l ↔ taken b1 player row col (dr, dc) p)
      as (l & Hwalk & Hl & Hmem).
    { destruct (flip_walk_exact b player dr dc Hwf Hp Hdir WALK_FUEL
                  (row + dr) (col + dc) []) as [Hnot Hheld].
      { unfold WALK_FUEL, SIZE. lia. }
      { intros Hon. destruct (room_step dr dc _ _ Hdir Hon) as [Hr _].
        unfold WALK_FUEL, SIZE in *. lia. }
      assert (∀ p, taken b1 player row col (dr, dc) p →
                   ∃ n, run_then_own b player (other player) dr dc
                          (row + dr) (col + dc) (S n)
                        ∧ p ∈ ray_cells dr dc (row + dr) (col + dc) (S n))
        as Htaken.
      { intros p (k & Hk & Hin). simpl in Hk, Hin. destruct k as [|k].
        - by apply elem_of_nil in Hin.
        - exists k. split; [by apply Hrun | done]. }
      destruct (classic_held b (other player) (row + dr) (col + dc) Hwf)
        as [Hfirst|Hfirst].
      - destruct (Hheld Hfirst) as [Hyes Hno].
        destruct (classic_run b player dr dc (row + dr + dr) (col + dc + dc)
                    Hwf Hp Hdir) as [[n Hn]|Hnone].
        + exists (ray_cells dr dc (row + dr) (col + dc) (S n)).
          split; [by rewrite (Hyes n Hn)|]. split.
          * apply (run_then_own_on_board b player (other player)).
            by split.
          * intros p. split.
            -- intros Hin. exists (S n). split; [|done].
               apply Hrun. by split.
            -- intros (m & [_ Hm] & Hin)%Htaken.
               assert (m = n) as ->; [|done].
               eapply run_then_own_unique; try done.
               apply not_eq_sym, other_neq.
        + exists []. split; [by apply Hno|]. split; [constructor|].
          intros p. split; [by intros ?%elem_of_nil|].
          intros (m & [_ Hm] & _)%Htaken. destruct Hnone. by exists m.
      - exists []. split; [by apply Hnot|]. split; [constructor|].
        intros p. split; [by intros ?%elem_of_nil|].
        intros (m & [Hm _] & _)%Htaken. done. }
    cbn [flip_dirs]. rewrite Hwalk. cbn [mbind result_bind].
    destruct (flip_cells_exact player l Hl b Hwf) as (b2 & -> & Hwf2 & Hpeek2).
    cbn [mbind result_bind].
    destruct (IH Hnodup Hsub' b2 Hwf2) as (b' & -> & Hwf' & Hpeek').
    { intros d i Hd Hi Hon. rewrite <- (Hrays d i) by (done || by right).
      destruct (Hpeek2 _ _ Hon) as [_ Hout]. apply Hout.
      intros (k & _ & Hin)%Hmem. simpl in Hin.
      apply elem_of_ray_cells in Hin as (j & Hj & Heq).
      destruct d as [dr' dc']. simpl in Heq.
      replace (row + dr + Z.of_nat j * dr)
        with (row + Z.of_nat (S j) * dr) in Heq by lia.
      replace (col + dc + Z.of_nat j * dc)
        with (col + Z.of_nat (S j) * dc) in Heq by lia.
      revert Heq. apply rays_disjoint; [by apply Hsub' | done | | done | lia].
      intros [= -> ->]. done. }
    exists b'. split; [done|]. split; [done|]. intros r c Hrc.
    destruct (Hpeek' r c Hrc) as [Hin' Hout'].
    destruct (Hpeek2 r c Hrc) as [Hin2 Hout2].
    destruct (classic_taken b1 player row col dirs (r, c) Hwf1 Hp Hsub')
      as [Hrest|Hrest].
    + split; [by intros _; apply Hin'|].
      intros Hno. destruct Hno. destruct Hrest as (d & Hd & Ht).
      exists d. split; [by right | done].
    + rewrite (Hout' Hrest). split.
      * intros (d & [->|Hd]%elem_of_cons & Ht).
        -- apply Hin2. by apply Hmem.
        -- destruct Hrest. by exists d.
      * intros Hno. apply Hout2. intros Hin%Hmem. apply Hno.
        exists (dr, dc). split; [by left | done].
Qed.

Lemma taken_iff_captured b player row col r c :
  (∃ d, d ∈ DIRECTIONS ∧ taken b player row col d (r, c))
  ↔ captured b player row col r c.
Proof.
  split.
  - intros ([dr dc] & Hd & k & Hrun & Hin). simpl in Hrun, Hin.
    apply run_then_own_spec in Hrun as [Hrun Hown].
    apply elem_of_ray_cells in Hin as (i & Hi & [= -> ->]).
    exists dr, dc, k, (S i). split; [done|]. split; [lia|].
    split; [lia|]. split; [lia|]. split.
    + intros [|j] Hj; [lia|]. specialize (Hrun j).
      replace (row + dr + Z.of_nat j * dr)
        with (row + Z.of_nat (S j) * dr) in Hrun by lia.
      replace (col + dc + Z.of_nat j * dc)
        with (col + Z.of_nat (S j) * dc) in Hrun by lia.
      apply Hrun. lia.
    + replace (row + (Z.of_nat k + 1) * dr)
        with (row + dr + Z.of_nat k * dr) by lia.
      by replace (col + (Z.of_nat k + 1) * dc)
        with (col + dc + Z.of_nat k * dc) by lia.
  - intros (dr & dc & k & i & Hd & Hi & -> & -> & Hrun & Hown).
    exists (dr, dc). split; [done|]. exists k. simpl. split.
    + apply run_then_own_spec. split.
      * intros j Hj. specialize (Hrun (S j)).
        replace (row + dr + Z.of_nat j * dr)
          with (row + Z.of_nat (S j) * dr) by lia.
        replace (col + dc + Z.of_nat j * dc)
          with (col + Z.of_nat (S j) * dc) by lia.
        apply Hrun. lia.
      * replace (row + dr + Z.of_nat k * dr)
          with (row + (Z.of_nat k + 1) * dr) by lia.
        by replace (col + dc + Z.of_nat k * dc)
          with (col + (Z.of_nat k + 1) * dc) by lia.
    + apply elem_of_ray_cells. destruct i as [|i]; [lia|].
      exists i. split; [lia|]. f_equal; lia.
Qed.

(** Boards that differ only on [(row, col)] have the same captured cells. *)
Lemma taken_ext b b' player row col d p :
  wf_board b → wf_board b' → d ∈ DIRECTIONS →
  (∀ r c, on_board r c → (r, c) ≠ (row, col) → peek b' r c = peek b r c) →
  taken b player row col d p → taken b' player row col d p.
Proof.
  intros Hwf Hwf' Hd Hsame (k & Hrun & Hin). exists k. split; [|done].
  eapply run_then_own_ext; [exact Hwf | exact Hwf' | | exact Hrun].
  intros i Hon. apply Hsame; [done|]. destruct d as [dr dc]. simpl.
  replace (row + dr + Z.of_nat i * dr) with (row + Z.of_nat (S i) * dr) by lia.
  replace (col + dc + Z.of_nat i * dc) with (col + Z.of_nat (S i) * dc) by lia.
  apply ray_misses_origin; [done | lia].
Qed.

Lemma DIRECTIONS_NoDup : NoDup DIRECTIONS.
Proof. apply (bool_decide_unpack _). by vm_compute. Qed.

Lemma captured_not_origin b player row col :
  ¬ captured b player row col row col.
Proof.
  intros (dr & dc & k & i & Hd & Hi & Hr & Hc & _).
  eapply (ray_misses_origin dr dc i row col); [done | lia |].
  f_equal; lia.
Qed.

(** The board after a legal move, cell by cell. *)
Lemma make_move_exact self row col :
  good self → on_board row col → is_valid_move self row col = Ok true →
  ∃ self', make_move self row col = Ok (true, self') ∧ good self'
    ∧ ∀ r c, on_board r c →
        (r = row ∧ c = col → peek (board self') r c = current_player self)
        ∧ (captured (board self) (current_player self) row col r c →
           peek (board self') r c = current_player self)
        ∧ (¬ (r = row ∧ c = col) →
           ¬ captured (board self) (current_player self) row col r c →
           peek (board self') r c = peek (board self) r c).
Proof.
  intros [Hwf Hp] Hon Hvalid.
  unfold make_move. rewrite Hvalid. cbn [mbind result_bind negb].
  destruct (set_cell_on_board (board self) row col (current_player self)
              Hwf Hon) as (b1 & -> & Hwf1 & Hpeek1 & _).
  cbn [mbind result_bind].
  destruct (flip_dirs_exact b1 (current_player self) row col DIRECTIONS
              Hwf1 Hp DIRECTIONS_NoDup) with (b := b1)
    as (b2 & -> & Hwf2 & Hpeek2); [done | done | done |].
  cbn [mbind result_bind]. rewrite coords_to_notation_on_board by done.
  cbn [mbind result_bind]. eexists. split; [done|]. cbn [board current_player].
  split; [split; [done | apply other_is_player]|].
  assert (∀ r c, (∃ d, d ∈ DIRECTIONS
                       ∧ taken b1 (current_player self) row col d (r, c))
                 ↔ captured (board self) (current_player self) row col r c)
    as Hcap.
  { intros r c. rewrite <- taken_iff_captured.
    split; intros (d & Hd & Ht); exists d; (split; [done|]);
      revert Ht; apply taken_ext; try done; intros r' c' Hon' Hne.
    - rewrite Hpeek1 by done. rewrite decide_False; [done|].
      intros [-> ->]. done.
    - rewrite Hpeek1 by done. rewrite decide_False; [done|].
      intros [-> ->]. done. }
  intros r c Hrc. destruct (Hpeek2 r c Hrc) as [Hin Hout].
  split; [|split].
  - intros [-> ->]. rewrite Hout.
    + rewrite Hpeek1 by done. by rewrite decide_True.
    + rewrite Hcap. apply captured_not_origin.
  - intros Hc. apply Hin. by apply Hcap.
  - intros Hne Hc. rewrite Hout by (by rewrite Hcap).
    rewrite Hpeek1 by done. by rewrite decide_False.
Qed.

(** ** The codec outside the board *)

Lemma str_inj n m : Py.str n = Py.str m → n = m.
Proof.
  unfold Py.str. intros H.
  assert (∀ z, Z.to_int z ≠ Decimal.Pos Decimal.Nil
               ∧ Z.to_int z ≠ Decimal.Neg Decimal.Nil) as Hnz.
  { intros [|p|p]; simpl; split; try done;
      intros [= Hp]; by apply (DecimalPos.Unsigned.to_uint_nonnil p). }
  apply (f_equal NilZero.int_of_string) in H.
  rewrite !NilZero.isi in H by apply Hnz.
  injection H as H. by apply DecimalZ.to_int_inj.
Qed.

Lemma chr_Ok n c : Py.chr n = Ok c → 0 ≤ n < 256 ∧ Py.ord c = n.
Proof.
  unfold Py.chr, Py.ord. repeat case_bool_decide; intros [= <-].
  split; [done|]. rewrite N_ascii_embedding by lia. lia.
Qed.

Lemma coords_to_notation_inj row col row' col' token :
  coords_to_notation row col = Ok token →
  coords_to_notation row' col' = Ok token →
  row = row' ∧ col = col'.
Proof.
  unfold coords_to_notation. intros H H'.
  destruct (Py.chr (97 + col)) as [c| |] eqn:Hc; [|done..].
  destruct (Py.chr (97 + col')) as [c'| |] eqn:Hc'; [|done..].
  cbn [mbind result_bind] in *. injection H as <-. injection H' as -> Hs.
  apply chr_Ok in Hc as [_ Hc]. apply chr_Ok in Hc' as [_ Hc'].
  apply str_inj in Hs. lia.
Qed.

Lemma coords_to_notation_well_formed row col token :
  coords_to_notation row col = Ok token →
  well_formed token ↔ on_board row col.
Proof.
  intros Henc. split.
  - intros Hwf.
    destruct (token_roundtrip token Hwf) as (r & c & _ & Hon & Henc').
    destruct (coords_to_notation_inj _ _ _ _ _ Henc Henc') as [-> ->]. done.
  - intros [Hr Hc]. unfold SIZE in *.
    assert (row = 0 ∨ row = 1 ∨ row = 2 ∨ row = 3
            ∨ row = 4 ∨ row = 5 ∨ row = 6 ∨ row = 7) as Hrow by lia.
    assert (col = 0 ∨ col = 1 ∨ col = 2 ∨ col = 3
            ∨ col = 4 ∨ col = 5 ∨ col = 6 ∨ col = 7) as Hcol by lia.
    destruct_or!; subst; injection Henc as <-; vm_compute;
      intuition discriminate.
Qed.

Lemma getitem_0 {A} (x : A) l : Py.getitem (x :: l) 0 = Ok x.
Proof.
  unfold Py.getitem, Py.index. rewrite bool_decide_true by (simpl; lia). done.
Qed.

Lemma getitem_1 {A} (x y : A) l : Py.getitem (x :: y :: l) 1 = Ok y.
Proof.
  unfold Py.getitem, Py.index. rewrite bool_decide_true by (simpl; lia). done.
Qed.

(** [notation_to_coords] reads two characters and checks only that the
    second is a digit. *)
Lemma notation_to_coords_cases token :
  match token with
  | String letter (String digit _) =>
      if bool_decide (48 ≤ Py.ord digit ≤ 57)
      then notation_to_coords token
           = Ok (Py.ord digit - 48 - 1, Py.ord letter - 97)
      else notation_to_coords token = Raise ValueError
  | _ => notation_to_coords token = Raise IndexError
  end.
Proof.
  destruct token as [|letter [|digit rest]].
  - reflexivity.
  - reflexivity.
  - unfold notation_to_coords, Py.strindex. cbn [list_ascii_of_string].
    rewrite getitem_0, getitem_1. cbn [mbind result_bind]. unfold Py.int.
    by case_bool_decide.
Qed.

(** ** Turns *)

Lemma is_game_over_switch_player self :
  good self →
  ∃ over, is_game_over self = Ok (over, self)
          ∧ is_game_over (switch_player self)
            = Ok (over, switch_player self).
Proof.
  intros Hgood. pose proof Hgood as [Hwf Hp].
  pose proof (good_switch_player self Hgood) as [Hwf' Hp'].
  destruct (is_game_over_spec self Hwf Hp) as (l1 & l2 & Hl1 & Hl2 & ->).
  destruct (is_game_over_spec (switch_player self) Hwf' Hp')
    as (l1' & l2' & Hl1' & Hl2' & ->).
  rewrite switch_player_twice in Hl2' by done.
  rewrite Hl2 in Hl1'. injection Hl1' as <-.
  rewrite Hl1 in Hl2'. injection Hl2' as <-.
  eexists. split; [done|]. do 2 f_equal. apply bool_decide_ext. tauto.
Qed.

Lemma game_ply_passed_inv draw self self' :
  good self → game_ply draw self = Ok (Passed, self') →
  self' = switch_player self
  ∧ get_valid_moves self = Ok []
  ∧ ∃ p l, get_valid_moves self' = Ok (p :: l).
Proof.
  intros Hgood Hply. next_ply self Hgood l1 l2 Hl1 Hl2.
  destruct l1 as [|p1 l1]; [destruct l2 as [|p2 l2]|].
  - destruct (game_ply_finished draw self Hgood Hl1 Hl2) as [H _].
    rewrite H in Hply. done.
  - destruct (game_ply_passed draw self p2 l2 Hgood Hl1 Hl2) as [H _].
    rewrite H in Hply. injection Hply as <-. split; [done|].
    split; [done|]. by exists p2, l2.
  - destruct (game_ply_placed draw self p1 l1 Hgood Hl1)
      as (row & col & token & self'' & H & _).
    rewrite H in Hply. done.
Qed.

(** After a pass the other player always moves: the loop never passes
    twice in a row. *)
Lemma pass_is_followed_by_a_move draw draw' self self' :
  good self → game_ply draw self = Ok (Passed, self') →
  ∃ self'', game_ply draw' self' = Ok (Placed, self'')
    ∧ occupied (board self'') = S (occupied (board self)).
Proof.
  intros Hgood Hply.
  destruct (game_ply_passed_inv draw self self' Hgood Hply)
    as (-> & _ & p & l & Hl).
  destruct (game_ply_placed draw' (switch_player self) p l)
    as (row & col & token & self'' & H & _ & Hocc & _);
    [by apply good_switch_player | done |].
  by exists self''.
Qed.

(** ** Moves on coordinates that Python wraps *)

Lemma set_cell_wrap b r c v :
  wf_board b → - SIZE ≤ r < SIZE → - SIZE ≤ c < SIZE →
  set_cell b r c v = set_cell b (r `mod` SIZE) (c `mod` SIZE) v.
Proof.
  intros Hwf Hr Hc. pose proof Hwf as [Hb _].
  assert (0 ≤ r `mod` SIZE < SIZE) as Hr' by (apply Z.mod_pos_bound; done).
  assert (0 ≤ c `mod` SIZE < SIZE) as Hc' by (apply Z.mod_pos_bound; done).
  unfold set_cell, Py.getitem, Py.setitem.
  rewrite !(index_wrap (length b)) by (rewrite Hb; unfold SIZE in *; lia).
  rewrite Hb. change (Z.of_nat (Z.to_nat SIZE)) with SIZE.
  rewrite Z.mod_mod by done. cbn [mbind result_bind].
  destruct (b !! Z.to_nat (r `mod` SIZE)) as [line|] eqn:Hline; [|done].
  cbn [mbind result_bind].
  pose proof (wf_board_lookup _ _ _ Hwf Hline) as Hlen.
  rewrite !(index_wrap (length line)) by (rewrite Hlen; unfold SIZE in *; lia).
  rewrite Hlen. change (Z.of_nat (Z.to_nat SIZE)) with SIZE.
  by rewrite Z.mod_mod by done.
Qed.

Lemma negative_token_not_well_formed row col token :
  - SIZE ≤ row < SIZE → - SIZE ≤ col < SIZE → row < 0 ∨ col < 0 →
  coords_to_notation row col = Ok token → ¬ well_formed token.
Proof.
  intros Hr Hc Hneg Henc Hwf.
  apply (coords_to_notation_well_formed _ _ _ Henc) in Hwf as [? ?]. lia.
Qed.

(** [make_move] trusts [is_valid_move] on a negative coordinate. *)
Lemma make_move_wrapped self row col :
  wf_board (board self) → is_player (current_player self) →
  - SIZE ≤ row < SIZE → - SIZE ≤ col < SIZE →
  is_valid_move self row col = Ok true →
  ∃ self' token,
    make_move self row col = Ok (true, self')
    ∧ coords_to_notation row col = Ok token
    ∧ moves self' = moves self ++ [token]
    ∧ wf_board (board self')
    ∧ occupied (board self') = S (occupied (board self))
    ∧ peek (board self) (row `mod` SIZE) (col `mod` SIZE) = EMPTY
    ∧ peek (board self') (row `mod` SIZE) (col `mod` SIZE)
      = current_player self.
Proof.
  intros Hwf Hp Hr Hc Hvalid.
  destruct (is_valid_move_spec self row col Hwf Hr Hc) as (v & Hv & Hempty & _).
  rewrite Hvalid in Hv. injection Hv as <-. specialize (Hempty eq_refl).
  assert (on_board (row `mod` SIZE) (col `mod` SIZE)) as Hon.
  { split; apply Z.mod_pos_bound; done. }
  unfold make_move. rewrite Hvalid. cbn [mbind result_bind negb].
  rewrite set_cell_wrap by done.
  destruct (set_cell_on_board (board self) _ _ (current_player self) Hwf Hon)
    as (b1 & -> & Hwf1 & Hpeek1 & Hocc1).
  cbn [mbind result_bind].
  pose proof (is_player_not_empty _ Hp) as Hne.
  destruct (flip_dirs_spec b1 (current_player self)
              (other (current_player self)) row col DIRECTIONS)
    with (b := b1) as (b2 & -> & Hwf2 & Hocc2 & Hcells);
    [done | apply other_not_empty | by apply not_eq_sym, other_neq | done | |].
  { split; [done|]. split; [done|]. by left. }
  cbn [mbind result_bind].
  assert (∃ token, coords_to_notation row col = Ok token) as [token Htoken].
  { unfold coords_to_notation, Py.chr.
    rewrite bool_decide_true by (unfold SIZE in *; lia). by eexists. }
  rewrite Htoken. cbn [mbind result_bind].
  eexists _, token. split; [done|]. split; [done|]. cbn [board moves].
  split; [done|]. split; [done|]. split; [|split; [done|]].
  - rewrite Hocc2. rewrite Hempty in Hocc1.
    rewrite (weight_not_empty (current_player self)) in Hocc1 by done.
    unfold weight in Hocc1. simpl in Hocc1. lia.
  - destruct (Hcells _ _ Hon) as [-> | [Hx _]].
    + rewrite Hpeek1 by done. by rewrite decide_True.
    + rewrite Hpeek1 in Hx by done. rewrite decide_True in Hx by done.
      by destruct (other_neq (current_player self)).
Qed.

(** ** The order of [get_valid_moves] *)

Lemma scan_cols_sublist self row cols valid_moves l :
  scan_cols self row cols valid_moves = Ok l →
  ∃ l', l = valid_moves ++ l' ∧ l' `sublist_of` ((λ col, (row, col)) <$> cols).
Proof.
  revert valid_moves. induction cols as [|col cols IH]; intros valid_moves.
  - intros [= <-]. exists []. by rewrite app_nil_r.
  - cbn [scan_cols].
    destruct (is_valid_move self row col) as [v| |]; [|done..].
    cbn [mbind result_bind]. intros (l' & -> & Hsub)%IH.
    rewrite fmap_cons. destruct v.
    + exists ((row, col) :: l'). split; [by rewrite <- app_assoc|].
      by apply sublist_skip.
    + exists l'. split; [done|]. by apply sublist_cons.
Qed.

Lemma scan_rows_sublist self rows valid_moves l :
  scan_rows self rows valid_moves = Ok l →
  ∃ l', l = valid_moves ++ l'
        ∧ l' `sublist_of`
            (row ← rows; (λ col, (row, col)) <$> Py.range SIZE).
Proof.
  revert valid_moves. induction rows as [|row rows IH]; intros valid_moves.
  - intros [= <-]. exists []. by rewrite app_nil_r.
  - cbn [scan_rows].
    destruct (scan_cols self row (Py.range SIZE) valid_moves)
      as [l1| |] eqn:Hcols; [|done..].
    cbn [mbind result_bind]. intros (l2 & -> & Hsub2)%IH.
    apply scan_cols_sublist in Hcols as (l1' & -> & Hsub1).
    exists (l1' ++ l2). split; [by rewrite app_assoc|].
    rewrite bind_cons. by apply sublist_app.
Qed.

Lemma get_valid_moves_sublist self l :
  get_valid_moves self = Ok l → l `sublist_of` cells_row_major.
Proof.
  intros (l' & -> & Hsub)%scan_rows_sublist. exact Hsub.
Qed.

Lemma cells_row_major_NoDup : NoDup cells_row_major.
Proof. apply (bool_decide_unpack _). by vm_compute. Qed.

(** ** What a game records *)

Lemma game_ply_placed_move draw self p l :
  good self → get_valid_moves self = Ok (p :: l) →
  ∃ row col self',
    game_ply draw self = Ok (Placed, self')
    ∧ (row, col) ∈ p :: l
    ∧ on_board row col ∧ is_valid_move self row col = Ok true
    ∧ make_move self row col = Ok (true, self').
Proof.
  intros [Hwf Hp] Hl1.
  destruct (is_game_over_spec self Hwf Hp) as (l1 & l2 & Hl1' & _ & Hover).
  rewrite Hl1 in Hl1'. injection Hl1' as <-.
  rewrite bool_decide_false in Hover by (by intros []).
  destruct (get_valid_moves_spec self Hwf) as (l1 & Hl1' & Hin).
  rewrite Hl1 in Hl1'. injection Hl1' as <-.
  destruct (choice_spec draw p l) as ([row col] & Hchoice & Hrc).
  pose proof Hrc as Hmem. apply Hin in Hrc as [Hon Hvalid].
  destruct (make_move_valid self row col Hwf Hp Hon Hvalid)
    as (b & token & _ & Hmove & _).
  eexists row, col, _. split; [|split; [done|split; [done|split; [done|]]]].
  - unfold game_ply. rewrite Hover. cbn [mbind result_bind].
    rewrite Hl1. cbn [mbind result_bind]. rewrite Hchoice.
    cbn [mbind result_bind]. rewrite Hmove. done.
  - exact Hmove.
Qed.

Lemma make_move_recorded self row col self' :
  good self → recorded self → on_board row col →
  is_valid_move self row col = Ok true →
  make_move self row col = Ok (true, self') →
  recorded self'.
Proof.
  intros [Hwf Hp] (Hocc & Hnodup & Hall) Hon Hvalid Hmove.
  destruct (make_move_valid self row col Hwf Hp Hon Hvalid)
    as (b & token & Htoken & Hmove' & Hwf' & Hocc' & Hempty & Hplaced & Hcells).
  rewrite Hmove in Hmove'. injection Hmove' as ->.
  unfold recorded. cbn [board moves].
  destruct (notation_roundtrip row col Hon) as (token' & Htoken' & Hdecode).
  rewrite Htoken in Htoken'. injection Htoken' as <-.
  assert (token ∉ moves self) as Hfresh.
  { intros Hin. rewrite Forall_forall in Hall.
    destruct (Hall token Hin) as (_ & r & c & Hdec & _ & Hfull).
    rewrite Hdecode in Hdec. injection Hdec as <- <-. done. }
  split; [|split].
  - rewrite Hocc', Hocc, length_app. simpl. lia.
  - apply NoDup_app. split; [done|]. split; [|apply NoDup_singleton].
    intros x Hx ->%list_elem_of_singleton. done.
  - apply Forall_app. split.
    + eapply Forall_impl; [exact Hall|].
      intros x (Hx & r & c & Hdec & Hrc & Hfull). split; [done|].
      exists r, c. split; [done|]. split; [done|].
      destruct (decide (r = row ∧ c = col)) as [[-> ->]|Hne]; [done|].
      destruct (Hcells r c Hrc) as [-> | [_ ->]]; [lia | done |].
      by apply is_player_not_empty.
    + apply Forall_singleton. split.
      * by apply (coords_to_notation_well_formed row col).
      * exists row, col. split; [done|]. split; [done|].
        rewrite Hplaced. by apply is_player_not_empty.
Qed.

Lemma game_ply_recorded draw self outcome self' :
  good self → recorded self →
  game_ply draw self = Ok (outcome, self') →
  good self' ∧ recorded self'.
Proof.
  intros Hgood Hrec Hply. next_ply self Hgood l1 l2 Hl1 Hl2.
  destruct l1 as [|p1 l1]; [destruct l2 as [|p2 l2]|].
  - destruct (game_ply_finished draw self Hgood Hl1 Hl2) as [H _].
    rewrite H in Hply. by injection Hply as <- <-.
  - destruct (game_ply_passed draw self p2 l2 Hgood Hl1 Hl2) as [H _].
    rewrite H in Hply. injection Hply as <- <-.
    split; [by apply good_switch_player | done].
  - destruct (game_ply_placed_move draw self p1 l1 Hgood Hl1)
      as (row & col & self'' & H & _ & Hon & Hvalid & Hmove).
    rewrite H in Hply. injection Hply as <- <-. split.
    + destruct (game_ply_spec draw self Hgood) as (o & s & Hs & Hgood' & _).
      rewrite H in Hs. by injection Hs as <- <-.
    + by eapply make_move_recorded.
Qed.

Lemma game_loop_recorded fuel :
  ∀ self rnd k final,
    good self → recorded self → game_loop fuel rnd k self = Ok final →
    good final ∧ recorded final.
Proof.
  induction fuel as [|fuel IH]; intros self rnd k final Hgood Hrec Hrun;
    [done|].
  cbn [game_loop] in Hrun.
  destruct (game_ply (rnd k) self) as [[outcome self']| |] eqn:Hply;
    [|done..].
  cbn [mbind result_bind] in Hrun.
  destruct (game_ply_recorded _ _ _ _ Hgood Hrec Hply) as [Hgood' Hrec'].
  destruct outcome.
  - by injection Hrun as <-.
  - by eapply IH.
  - by eapply IH.
Qed.

Lemma new_board_recorded : recorded new_board.
Proof.
  split; [reflexivity|]. split; [apply NoDup_nil_2 | constructor].
Qed.

Lemma game_loop_records_a_move fuel rnd final :
  game_loop fuel rnd 0 new_board = Ok final → moves final ≠ [].
Proof.
  intros Hrun. destruct fuel as [|fuel]; [done|]. cbn [game_loop] in Hrun.
  destruct (game_ply_placed (rnd 0%nat) new_board (2, 3) [(3, 2); (4, 5); (5, 4)]
              new_board_good)
    as (row & col & token & self' & Hply & Hgood & _ & Hmoves & _);
    [by vm_compute|].
  rewrite Hply in Hrun. cbn [mbind result_bind] in Hrun.
  destruct (game_loop_replay fuel self' rnd 1%nat final Hgood Hrun)
    as (tokens & -> & _).
  rewrite Hmoves. simpl. done.
Qed.

(** ** The file of games *)

Lemma append_cons c (s t : string) :
  String.append (String c s) t = String c (String.append s t).
Proof. reflexivity. Qed.

Lemma append_nil (t : string) : String.append EmptyString t = t.
Proof. reflexivity. Qed.

Lemma append_assoc (s1 s2 s3 : string) :
  String.append (String.append s1 s2) s3
  = String.append s1 (String.append s2 s3).
Proof.
  induction s1 as [|c s1 IH]; [done|]. by rewrite !append_cons, IH.
Qed.

Lemma append_empty_r (s : string) : String.append s EmptyString = s.
Proof. induction s as [|c s IH]; [done|]. by rewrite append_cons, IH. Qed.

Lemma write_games_lines games written :
  write_games games written = String.append written (lines_of games).
Proof.
  revert written. induction games as [|game games IH]; intros written;
    cbn [write_games lines_of].
  - by rewrite append_empty_r.
  - by rewrite IH, !append_assoc.
Qed.

Lemma save_games_lines games : save_games games = lines_of games.
Proof. unfold save_games. by rewrite write_games_lines. Qed.

Lemma count_newlines_append s1 s2 :
  count_newlines (String.append s1 s2)
  = (count_newlines s1 + count_newlines s2)%nat.
Proof.
  induction s1 as [|c s1 IH]; [done|].
  rewrite append_cons. cbn [count_newlines]. rewrite IH. lia.
Qed.

Lemma well_formed_shape token :
  well_formed token →
  ∃ letter digit, token = String letter (String digit EmptyString)
                  ∧ letter ≠ "010"%char ∧ digit ≠ "010"%char.
Proof.
  destruct token as [|letter [|digit [|]]]; try done. intros [Hl Hd].
  exists letter, digit. split; [done|].
  split; intros ->; vm_compute in Hl, Hd; intuition discriminate.
Qed.

Lemma count_newlines_join game :
  Forall well_formed game → count_newlines (join "," game) = 0%nat.
Proof.
  induction 1 as [|token game Htoken _ IH]; [done|].
  destruct (well_formed_shape token Htoken) as (a & d & -> & Ha & Hd).
  cbn [join]. destruct game as [|token' game].
  - cbn [count_newlines]. by rewrite !bool_decide_false.
  - rewrite count_newlines_append. cbn [count_newlines].
    rewrite !bool_decide_false by done.
    rewrite count_newlines_append, IH. reflexivity.
Qed.

Lemma count_newlines_lines_of games :
  Forall (Forall well_formed) games →
  count_newlines (lines_of games) = length games.
Proof.
  induction 1 as [|game games Hgame _ IH]; [done|]. cbn [lines_of].
  rewrite !count_newlines_append, count_newlines_join, IH by done.
  reflexivity.
Qed.

(** One line is read back without ambiguity. *)
Lemma line_inj game1 :
  ∀ game2 rest1 rest2,
    playable game1 → playable game2 →
    String.append (join "," game1) (String.append newline rest1)
    = String.append (join "," game2) (String.append newline rest2) →
    game1 = game2 ∧ rest1 = rest2.
Proof.
  induction game1 as [|token1 game1 IH]; intros game2 rest1 rest2
    [Hne1 Hwf1] [Hne2 Hwf2] Heq; [done|].
  destruct game2 as [|token2 game2]; [done|].
  apply Forall_cons in Hwf1 as [Ht1 Hwf1].
  apply Forall_cons in Hwf2 as [Ht2 Hwf2].
  destruct (well_formed_shape token1 Ht1) as (a1 & d1 & -> & _).
  destruct (well_formed_shape token2 Ht2) as (a2 & d2 & -> & _).
  unfold newline in *.
  destruct game1 as [|t1 game1], game2 as [|t2 game2]; cbn [join] in Heq;
    rewrite ?append_assoc, ?append_cons, ?append_nil in Heq.
  - by injection Heq as -> -> ->.
  - by injection Heq.
  - by injection Heq.
  - injection Heq as -> -> Heq.
    destruct (IH (t2 :: game2) rest1 rest2) as [Hg ->]; [done..| |].
    + unfold newline. by rewrite ?append_cons, ?append_nil.
    + by rewrite Hg.
Qed.

Lemma lines_of_nonempty game games :
  playable game → lines_of (game :: games) ≠ EmptyString.
Proof.
  intros [Hne Hwf]. destruct game as [|token game]; [done|].
  apply Forall_cons in Hwf as [Ht _].
  destruct (well_formed_shape token Ht) as (a & d & -> & _).
  cbn [lines_of join]. destruct game; by rewrite ?append_cons.
Qed.

Lemma lines_of_inj games1 :
  ∀ games2,
    Forall playable games1 → Forall playable games2 →
    lines_of games1 = lines_of games2 → games1 = games2.
Proof.
  induction games1 as [|game1 games1 IH]; intros [|game2 games2] H1 H2 Heq.
  - done.
  - apply Forall_cons in H2 as [Hg _]. symmetry in Heq.
    by apply lines_of_nonempty in Heq.
  - apply Forall_cons in H1 as [Hg _]. by apply lines_of_nonempty in Heq.
  - apply Forall_cons in H1 as [Hg1 H1]. apply Forall_cons in H2 as [Hg2 H2].
    cbn [lines_of] in Heq.
    destruct (line_inj game1 game2 _ _ Hg1 Hg2 Heq) as [-> Hrest].
    f_equal. by apply IH.
Qed.

(** ** Batches of games *)

Lemma generate_game_playable fuel rnd :
  (GAME_FUEL ≤ fuel)%nat →
  ∃ game, generate_game fuel rnd = Ok game
    ∧ playable game ∧ NoDup game ∧ (length game ≤ 60)%nat.
Proof.
  intros Hfuel.
  destruct (game_loop_terminates 60 new_board fuel rnd 0%nat)
    as (final & Hrun & _).
  { apply new_board_good. }
  { rewrite new_board_occupied. lia. }
  { unfold GAME_FUEL in Hfuel. lia. }
  destruct (game_loop_recorded fuel new_board rnd 0%nat final
              new_board_good new_board_recorded Hrun)
    as [[Hwf _] (Hocc & Hnodup & Hall)].
  exists (moves final). split; [|split; [split|split]].
  - unfold generate_game. rewrite init_new_board. cbn [mbind result_bind].
    by rewrite Hrun.
  - by eapply game_loop_records_a_move.
  - eapply Forall_impl; [exact Hall|]. by intros token [? _].
  - done.
  - pose proof (occupied_le _ Hwf). lia.
Qed.

Lemma generate_games_loop_spec fuel rnds turns :
  (GAME_FUEL ≤ fuel)%nat →
  ∀ games, ∃ new,
    generate_games_loop fuel rnds turns games = Ok (games ++ new)
    ∧ length new = length turns
    ∧ Forall (λ game, playable game ∧ NoDup game ∧ (length game ≤ 60)%nat)
        new.
Proof.
  intros Hfuel. induction turns as [|i turns IH]; intros games.
  - exists []. by rewrite app_nil_r.
  - cbn [generate_games_loop].
    destruct (generate_game_playable fuel (rnds (Z.to_nat i)) Hfuel)
      as (game & -> & Hgame).
    cbn [mbind result_bind].
    destruct (IH (games ++ [game])) as (new & -> & Hlen & Hall).
    exists (game :: new). split; [by rewrite <- app_assoc|].
    split; [simpl; by rewrite Hlen|]. by constructor.
Qed.

Lemma range_length n : length (Py.range n) = Z.to_nat n.
Proof. unfold Py.range. by rewrite length_fmap, length_seq. Qed.

(** ** The further properties *)

(** X1.  The board after a legal move on a cell of the board, cell by
    cell: the cell played and the captured cells (the cells of a run of
    opponent cells that starts next to the cell played and is closed by a
    cell of the player, in any of the 8 directions) hold the player's
    colour, and every other cell holds what it held. *)
Theorem make_move_flips_exactly_the_captured_cells self row col :
  good self → on_board row col → is_valid_move self row col = Ok true →
  ∃ self', make_move self row col = Ok (true, self')
    ∧ ∀ r c, on_board r c →
        ((r = row ∧ c = col)
         ∨ captured (board self) (current_player self) row col r c →
         cell_at (board self') r c = Ok (current_player self))
        ∧ (¬ (r = row ∧ c = col) →
           ¬ captured (board self) (current_player self) row col r c →
           cell_at (board self') r c = cell_at (board self) r c).
Proof.
  intros Hgood Hon Hvalid.
  destruct (make_move_exact self row col Hgood Hon Hvalid)
    as (self' & Hmove & [Hwf' _] & Hcells).
  exists self'. split; [done|]. intros r c Hrc.
  destruct (Hcells r c Hrc) as (Horigin & Hcap & Hrest).
  rewrite !cell_at_on_board by (done || apply Hgood). split.
  - intros [H|H]; f_equal; [by apply Horigin | by apply Hcap].
  - intros H1 H2. f_equal. by apply Hrest.
Qed.

Lemma make_move_flips_exactly_the_captured_cells_witness :
  (good new_board ∧ on_board 2 3 ∧ is_valid_move new_board 2 3 = Ok true)
  ∧ ∃ self', make_move new_board 2 3 = Ok (true, self')
      ∧ ∀ r c, on_board r c →
          ((r = 2 ∧ c = 3)
           ∨ captured (board new_board) (current_player new_board) 2 3 r c →
           cell_at (board self') r c = Ok (current_player new_board))
          ∧ (¬ (r = 2 ∧ c = 3) →
             ¬ captured (board new_board) (current_player new_board) 2 3 r c →
             cell_at (board self') r c = cell_at (board new_board) r c).
Proof.
  assert (good new_board) as H1
    by (apply (bool_decide_unpack _); vm_compute; exact I).
  assert (on_board 2 3) as H2
    by (apply (bool_decide_unpack _); vm_compute; exact I).
  assert (is_valid_move new_board 2 3 = Ok true) as H3
    by (vm_compute; reflexivity).
  split; [done|].
  exact (make_move_flips_exactly_the_captured_cells new_board 2 3 H1 H2 H3).
Defined.

Lemma captures_captured self row col dr dc :
  (dr, dc) ∈ DIRECTIONS → captures self row col dr dc →
  captured (board self) (current_player self) row col (row + dr) (col + dc)
  ∧ held_by (board self) (other (current_player self)) (row + dr) (col + dc).
Proof.
  intros Hd (k & Hk & Hrun & Hown).
  assert (held_by (board self) (other (current_player self))
            (row + dr) (col + dc)) as Hfirst.
  { specialize (Hrun 1%nat).
    replace (row + Z.of_nat 1 * dr) with (row + dr) in Hrun by lia.
    replace (col + Z.of_nat 1 * dc) with (col + dc) in Hrun by lia.
    apply Hrun. lia. }
  split; [|done]. exists dr, dc, k, 1%nat.
  split; [done|]. split; [lia|]. split; [lia|]. split; [lia|]. done.
Qed.

(** X2.  A legal move flips at least one piece: some cell of the board
    held the opponent's colour before the move and holds the player's
    after it. *)
Theorem legal_move_flips_at_least_one_piece self row col :
  good self → on_board row col → is_valid_move self row col = Ok true →
  ∃ self' r c, make_move self row col = Ok (true, self')
    ∧ on_board r c
    ∧ cell_at (board self) r c = Ok (other (current_player self))
    ∧ cell_at (board self') r c = Ok (current_player self).
Proof.
  intros Hgood Hon Hvalid. pose proof Hgood as [Hwf Hp].
  destruct (is_valid_move_on_board self row col Hwf Hp Hon)
    as (v & Hv & Hiff).
  rewrite Hvalid in Hv. injection Hv as <-.
  destruct Hiff as [Hiff _].
  destruct (Hiff eq_refl) as (_ & dr & dc & Hd & Hcaptures).
  destruct (captures_captured self row col dr dc Hd Hcaptures)
    as [Hcap [Hrc Hopp]].
  destruct (make_move_exact self row col Hgood Hon Hvalid)
    as (self' & Hmove & [Hwf' _] & Hcells).
  exists self', (row + dr), (col + dc). split; [done|]. split; [done|].
  split; [done|]. rewrite cell_at_on_board by done. f_equal.
  by apply (Hcells _ _ Hrc).
Qed.

Lemma legal_move_flips_at_least_one_piece_witness :
  (good new_board ∧ on_board 2 3 ∧ is_valid_move new_board 2 3 = Ok true)
  ∧ ∃ self' r c, make_move new_board 2 3 = Ok (true, self')
      ∧ on_board r c
      ∧ cell_at (board new_board) r c = Ok (other (current_player new_board))
      ∧ cell_at (board self') r c = Ok (current_player new_board).
Proof.
  assert (good new_board) as H1
    by (apply (bool_decide_unpack _); vm_compute; exact I).
  assert (on_board 2 3) as H2
    by (apply (bool_decide_unpack _); vm_compute; exact I).
  assert (is_valid_move new_board 2 3 = Ok true) as H3
    by (vm_compute; reflexivity).
  split; [done|].
  exact (legal_move_flips_at_least_one_piece new_board 2 3 H1 H2 H3).
Defined.

(** X3.  A legal move on a cell of the board appends exactly one token to
    the move list: the notation of the cell, which is well formed and
    decodes to the cell; the earlier tokens are kept. *)
Theorem make_move_records_the_move self row col :
  good self → on_board row col → is_valid_move self row col = Ok true →
  ∃ self' token, make_move self row col = Ok (true, self')
    ∧ moves self' = moves self ++ [token]
    ∧ coords_to_notation row col = Ok token
    ∧ well_formed token
    ∧ notation_to_coords token = Ok (row, col).
Proof.
  intros [Hwf Hp] Hon Hvalid.
  destruct (make_move_valid self row col Hwf Hp Hon Hvalid)
    as (b & token & Htoken & Hmove & _).
  destruct (notation_roundtrip row col Hon) as (token' & Htoken' & Hdecode).
  rewrite Htoken in Htoken'. injection Htoken' as <-.
  eexists _, token. split; [exact Hmove|]. split; [done|]. split; [done|].
  split; [|done]. by apply (coords_to_notation_well_formed row col).
Qed.

Lemma make_move_records_the_move_witness :
  (good new_board ∧ on_board 2 3 ∧ is_valid_move new_board 2 3 = Ok true)
  ∧ ∃ self' token, make_move new_board 2 3 = Ok (true, self')
      ∧ moves self' = moves new_board ++ [token]
      ∧ coords_to_notation 2 3 = Ok token
      ∧ well_formed token
      ∧ notation_to_coords token = Ok (2, 3).
Proof.
  assert (good new_board) as H1
    by (apply (bool_decide_unpack _); vm_compute; exact I).
  assert (on_board 2 3) as H2
    by (apply (bool_decide_unpack _); vm_compute; exact I).
  assert (is_valid_move new_board 2 3 = Ok true) as H3
    by (vm_compute; reflexivity).
  split; [done|].
  exact (make_move_records_the_move new_board 2 3 H1 H2 H3).
Defined.

(** X4.  [make_move] does not check the range of its coordinates: when
    [is_valid_move] answers [True] for a negative row or column in
    [-8, -1], the move is applied.  The piece lands on the cell counted
    from the opposite edge, which was empty, the number of occupied cells
    grows by one, and the token recorded, computed from the coordinates as
    given, is not a well-formed token. *)
Theorem make_move_applies_a_move_on_negative_coordinates self row col :
  wf_board (board self) → is_player (current_player self) →
  - SIZE ≤ row < SIZE → - SIZE ≤ col < SIZE → row < 0 ∨ col < 0 →
  is_valid_move self row col = Ok true →
  ∃ self' token,
    make_move self row col = Ok (true, self')
    ∧ moves self' = moves self ++ [token]
    ∧ ¬ well_formed token
    ∧ occupied (board self') = S (occupied (board self))
    ∧ cell_at (board self) (row `mod` SIZE) (col `mod` SIZE) = Ok EMPTY
    ∧ cell_at (board self') (row `mod` SIZE) (col `mod` SIZE)
      = Ok (current_player self).
Proof.
  intros Hwf Hp Hr Hc Hneg Hvalid.
  destruct (make_move_wrapped self row col Hwf Hp Hr Hc Hvalid)
    as (self' & token & Hmove & Htoken & Hmoves & Hwf' & Hocc & Hempty
        & Hplaced).
  assert (on_board (row `mod` SIZE) (col `mod` SIZE)) as Hon.
  { split; apply Z.mod_pos_bound; done. }
  exists self', token. split; [done|]. split; [done|].
  split; [by apply (negative_token_not_well_formed row col)|].
  split; [done|].
  rewrite !cell_at_on_board by done. by rewrite Hempty, Hplaced.
Qed.

Lemma make_move_applies_a_move_on_negative_coordinates_witness :
  (wf_board (board pass_position) ∧ is_player (current_player pass_position)
   ∧ - SIZE ≤ -1 < SIZE ∧ - SIZE ≤ 4 < SIZE ∧ (-1 < 0 ∨ 4 < 0)
   ∧ is_valid_move pass_position (-1) 4 = Ok true)
  ∧ ∃ self' token,
      make_move pass_position (-1) 4 = Ok (true, self')
      ∧ moves self' = moves pass_position ++ [token]
      ∧ ¬ well_formed token
      ∧ occupied (board self') = S (occupied (board pass_position))
      ∧ cell_at (board pass_position) ((-1) `mod` SIZE) (4 `mod` SIZE)
        = Ok EMPTY
      ∧ cell_at (board self') ((-1) `mod` SIZE) (4 `mod` SIZE)
        = Ok (current_player pass_position).
Proof.
  assert (wf_board (board pass_position)) as H1
    by (apply (bool_decide_unpack _); vm_compute; exact I).
  assert (is_player (current_player pass_position)) as H2
    by (apply (bool_decide_unpack _); vm_compute; exact I).
  assert (- SIZE ≤ -1 < SIZE) as H3 by (unfold SIZE; lia).
  assert (- SIZE ≤ 4 < SIZE) as H4 by (unfold SIZE; lia).
  assert (-1 < 0 ∨ 4 < 0) as H5 by lia.
  assert (is_valid_move pass_position (-1) 4 = Ok true) as H6
    by (vm_compute; reflexivity).
  split; [done|].
  exact (make_move_applies_a_move_on_negative_coordinates pass_position
           (-1) 4 H1 H2 H3 H4 H5 H6).
Defined.

(** X5.  [get_valid_moves] returns the valid cells of the board in the
    order of its two loops: the list is a sublist of the row-major
    enumeration of the 64 cells, holds no cell twice, and holds exactly the
    cells of the board on which [is_valid_move] answers [True]. *)
Theorem get_valid_moves_lists_the_valid_cells_in_row_major_order self :
  wf_board (board self) →
  ∃ l, get_valid_moves self = Ok l
    ∧ l `sublist_of` cells_row_major
    ∧ NoDup l
    ∧ ∀ row col, (row, col) ∈ l ↔
        on_board row col ∧ is_valid_move self row col = Ok true.
Proof.
  intros Hwf. destruct (get_valid_moves_spec self Hwf) as (l & Hl & Hin).
  exists l. split; [done|].
  pose proof (get_valid_moves_sublist self l Hl) as Hsub.
  split; [done|]. split; [|done].
  exact (sublist_NoDup _ _ cells_row_major_NoDup Hsub).
Qed.

Lemma get_valid_moves_lists_the_valid_cells_in_row_major_order_witness :
  wf_board (board (switch_player pass_position))
  ∧ ∃ l, get_valid_moves (switch_player pass_position) = Ok l
      ∧ l `sublist_of` cells_row_major
      ∧ NoDup l
      ∧ ∀ row col, (row, col) ∈ l ↔
          on_board row col
          ∧ is_valid_move (switch_player pass_position) row col = Ok true.
Proof.
  assert (wf_board (board (switch_player pass_position))) as H
    by (apply (bool_decide_unpack _); vm_compute; exact I).
  split; [exact H|].
  exact (get_valid_moves_lists_the_valid_cells_in_row_major_order
           (switch_player pass_position) H).
Defined.

(** X6.  [has_valid_moves] returns [True] exactly when [is_valid_move]
    answers [True] on some cell of the board. *)
Theorem has_valid_moves_iff_some_cell_is_valid self :
  wf_board (board self) →
  ∃ has, has_valid_moves self = Ok has
    ∧ (has = true ↔
       ∃ row col, on_board row col ∧ is_valid_move self row col = Ok true).
Proof.
  intros Hwf. destruct (has_valid_moves_spec self Hwf) as (l & Hl & ->).
  destruct (get_valid_moves_spec self Hwf) as (l' & Hl' & Hin).
  rewrite Hl in Hl'. injection Hl' as <-.
  eexists. split; [done|]. rewrite bool_decide_eq_true. split.
  - destruct l as [|[row col] l]; [done|]. intros _.
    exists row, col. apply Hin. by left.
  - intros (row & col & Hrc) ->. apply Hin in Hrc.
    by apply elem_of_nil in Hrc.
Qed.

Lemma has_valid_moves_iff_some_cell_is_valid_witness :
  wf_board (board pass_position)
  ∧ ∃ has, has_valid_moves pass_position = Ok has
      ∧ (has = true ↔
         ∃ row col, on_board row col
                    ∧ is_valid_move pass_position row col = Ok true).
Proof.
  assert (wf_board (board pass_position)) as H
    by (apply (bool_decide_unpack _); vm_compute; exact I).
  split; [exact H|].
  exact (has_valid_moves_iff_some_cell_is_valid pass_position H).
Defined.

(** X7.  Whether the game is over does not depend on who is to move:
    [is_game_over] gives the same answer for a position and for the
    position with the other player to move. *)
Theorem is_game_over_is_the_same_for_both_players self :
  good self →
  ∃ over, is_game_over self = Ok (over, self)
          ∧ is_game_over (switch_player self)
            = Ok (over, switch_player self).
Proof. apply is_game_over_switch_player. Qed.

Lemma is_game_over_is_the_same_for_both_players_witness :
  good pass_position
  ∧ ∃ over, is_game_over pass_position = Ok (over, pass_position)
            ∧ is_game_over (switch_player pass_position)
              = Ok (over, switch_player pass_position).
Proof.
  assert (good pass_position) as H
    by (apply (bool_decide_unpack _); vm_compute; exact I).
  split; [exact H|].
  exact (is_game_over_is_the_same_for_both_players pass_position H).
Defined.

(** X8.  The game loop never passes twice in a row: the turn that follows
    a pass applies a move of the other player, whatever number is
    drawn. *)
Theorem a_pass_is_followed_by_a_move draw draw' self self' :
  good self → game_ply draw self = Ok (Passed, self') →
  self' = switch_player self
  ∧ ∃ self'', game_ply draw' self' = Ok (Placed, self'')
      ∧ occupied (board self'') = S (occupied (board self)).
Proof.
  intros Hgood Hply. split.
  - by destruct (game_ply_passed_inv draw self self' Hgood Hply).
  - by eapply pass_is_followed_by_a_move.
Qed.

Lemma a_pass_is_followed_by_a_move_witness :
  (good pass_position
   ∧ game_ply 0 pass_position = Ok (Passed, switch_player pass_position))
  ∧ switch_player pass_position = switch_player pass_position
  ∧ ∃ self'', game_ply 3 (switch_player pass_position) = Ok (Placed, self'')
      ∧ occupied (board self'') = S (occupied (board pass_position)).
Proof.
  assert (good pass_position) as H1
    by (apply (bool_decide_unpack _); vm_compute; exact I).
  assert (game_ply 0 pass_position = Ok (Passed, switch_player pass_position))
    as H2 by (vm_compute; reflexivity).
  split; [exact (conj H1 H2)|].
  exact (a_pass_is_followed_by_a_move 0 3 pass_position
           (switch_player pass_position) H1 H2).
Defined.

(** X9.  The list of moves that [generate_game] returns holds between 1
    and 60 tokens, all well formed (a letter a..h and a digit 1..8), and no
    token twice: no cell is played more than once in a game. *)
Theorem generate_game_returns_distinct_well_formed_tokens fuel rnd game :
  generate_game fuel rnd = Ok game →
  (1 ≤ length game ≤ 60)%nat ∧ NoDup game ∧ Forall well_formed game.
Proof.
  unfold generate_game. rewrite init_new_board. cbn [mbind result_bind].
  destruct (game_loop fuel rnd 0 new_board) as [final| |] eqn:Hrun; [|done..].
  cbn [mbind result_bind]. intros [= <-]. unfold get_moves_notation.
  destruct (game_loop_recorded fuel new_board rnd 0%nat final
              new_board_good new_board_recorded Hrun)
    as [[Hwf _] (Hocc & Hnodup & Hall)].
  pose proof (game_loop_records_a_move fuel rnd final Hrun) as Hne.
  pose proof (occupied_le _ Hwf) as Hle.
  split; [|split; [done|]].
  - destruct (moves final); [done|]. simpl in *. lia.
  - eapply Forall_impl; [exact Hall|]. by intros token [? _].
Qed.

Lemma generate_game_returns_distinct_well_formed_tokens_witness :
  generate_game GAME_FUEL (λ _, 0%nat)
  = Ok (get_moves_notation first_move_game_end)
  ∧ (1 ≤ length (get_moves_notation first_move_game_end) ≤ 60)%nat
  ∧ NoDup (get_moves_notation first_move_game_end)
  ∧ Forall well_formed (get_moves_notation first_move_game_end).
Proof.
  assert (generate_game GAME_FUEL (λ _, 0%nat)
          = Ok (get_moves_notation first_move_game_end)) as H
    by (vm_compute; reflexivity).
  split; [exact H|].
  exact (generate_game_returns_distinct_well_formed_tokens GAME_FUEL
           (λ _, 0%nat) (get_moves_notation first_move_game_end) H).
Defined.

(** X10.  In the position where a run of the game loop ends, the board and
    the move list agree: the number of occupied cells is 4 plus the number
    of recorded moves, and every recorded token decodes to a cell of the
    board that is occupied. *)
Theorem final_board_has_one_piece_per_recorded_move fuel rnd final :
  (b ← init; game_loop fuel rnd 0 b) = Ok final →
  occupied (board final) = (4 + length (get_moves_notation final))%nat
  ∧ ∀ token, token ∈ get_moves_notation final →
      ∃ row col, notation_to_coords token = Ok (row, col)
        ∧ on_board row col
        ∧ ∃ colour, cell_at (board final) row col = Ok colour
                    ∧ colour ≠ EMPTY.
Proof.
  rewrite init_new_board. cbn [mbind result_bind]. intros Hrun.
  destruct (game_loop_recorded fuel new_board rnd 0%nat final
              new_board_good new_board_recorded Hrun)
    as [[Hwf _] (Hocc & _ & Hall)].
  split; [done|]. intros token Hin. rewrite Forall_forall in Hall.
  destruct (Hall token Hin) as (_ & row & col & Hdec & Hon & Hfull).
  exists row, col. split; [done|]. split; [done|].
  exists (peek (board final) row col). split; [|done].
  by apply cell_at_on_board.
Qed.

Lemma final_board_has_one_piece_per_recorded_move_witness :
  (b ← init; game_loop GAME_FUEL (λ _, 0%nat) 0 b) = Ok first_move_game_end
  ∧ occupied (board first_move_game_end)
    = (4 + length (get_moves_notation first_move_game_end))%nat
  ∧ ∀ token, token ∈ get_moves_notation first_move_game_end →
      ∃ row col, notation_to_coords token = Ok (row, col)
        ∧ on_board row col
        ∧ ∃ colour, cell_at (board first_move_game_end) row col = Ok colour
                    ∧ colour ≠ EMPTY.
Proof.
  assert ((b ← init; game_loop GAME_FUEL (λ _, 0%nat) 0 b)
          = Ok first_move_game_end) as H by (vm_compute; reflexivity).
  split; [exact H|].
  exact (final_board_has_one_piece_per_recorded_move GAME_FUEL (λ _, 0%nat)
           first_move_game_end H).
Defined.

(** X11.  [notation_to_coords] reads the first two characters of its
    argument and validates only that the second is a decimal digit: a
    string of fewer than two characters raises [IndexError], a second
    character that is not a digit raises [ValueError], and otherwise the
    result is [(digit - 1, letter - 97)], whatever follows the two
    characters and whether or not the cell is on the board. *)
Theorem notation_to_coords_reads_two_characters_unchecked token :
  match token with
  | String letter (String digit rest) =>
      if bool_decide (48 ≤ Py.ord digit ≤ 57)
      then notation_to_coords token
           = Ok (Py.ord digit - 48 - 1, Py.ord letter - 97)
           ∧ notation_to_coords token
             = notation_to_coords (String letter (String digit EmptyString))
      else notation_to_coords token = Raise ValueError
  | _ => notation_to_coords token = Raise IndexError
  end.
Proof.
  pose proof (notation_to_coords_cases token) as H.
  destruct token as [|letter [|digit rest]]; [done..|].
  case_bool_decide as Hdigit; [|done]. split; [done|]. rewrite H.
  pose proof (notation_to_coords_cases
                (String letter (String digit EmptyString))) as H'.
  cbn beta iota in H'. rewrite bool_decide_true in H' by done. by rewrite H'.
Qed.

(** X12.  [coords_to_notation] never gives the same token to two different
    pairs of coordinates, and the token it returns is well formed exactly
    when the pair is a cell of the board. *)
Theorem coords_to_notation_is_injective row col row' col' token :
  coords_to_notation row col = Ok token →
  (coords_to_notation row' col' = Ok token → row' = row ∧ col' = col)
  ∧ (well_formed token ↔ on_board row col).
Proof.
  intros Henc. split.
  - intros Henc'.
    by destruct (coords_to_notation_inj _ _ _ _ _ Henc Henc') as [-> ->].
  - by apply coords_to_notation_well_formed.
Qed.

Lemma coords_to_notation_is_injective_witness :
  coords_to_notation 9 3 = Ok "d10"%string
  ∧ (coords_to_notation 9 3 = Ok "d10"%string → 9 = 9 ∧ 3 = 3)
  ∧ (well_formed "d10" ↔ on_board 9 3).
Proof.
  assert (coords_to_notation 9 3 = Ok "d10"%string) as H
    by (vm_compute; reflexivity).
  split; [exact H|].
  exact (coords_to_notation_is_injective 9 3 9 3 "d10"%string H).
Defined.

(** X13.  [generate_games] returns [num_games] games (none when
    [num_games] is zero or negative), and each of them is a game as
    [generate_game] returns them: between 1 and 60 well-formed tokens, no
    token twice. *)
Theorem generate_games_returns_num_games_games fuel rnds num_games :
  (GAME_FUEL ≤ fuel)%nat →
  ∃ games, generate_games fuel rnds num_games = Ok games
    ∧ length games = Z.to_nat num_games
    ∧ (num_games ≤ 0 → games = [])
    ∧ Forall (λ game, playable game ∧ NoDup game ∧ (length game ≤ 60)%nat)
        games.
Proof.
  intros Hfuel. unfold generate_games.
  destruct (generate_games_loop_spec fuel rnds (Py.range num_games) Hfuel [])
    as (games & Hrun & Hlen & Hall).
  rewrite range_length in Hlen.
  exists games. split; [done|]. split; [done|]. split; [|done].
  intros Hneg. destruct games; [done|]. simpl in Hlen. lia.
Qed.

Lemma generate_games_returns_num_games_games_witness :
  (GAME_FUEL ≤ GAME_FUEL)%nat
  ∧ ∃ games, generate_games GAME_FUEL (λ i _, i) 3 = Ok games
      ∧ length games = Z.to_nat 3
      ∧ (3 ≤ 0 → games = [])
      ∧ Forall (λ game, playable game ∧ NoDup game ∧ (length game ≤ 60)%nat)
          games.
Proof.
  assert (GAME_FUEL ≤ GAME_FUEL)%nat as H by lia.
  split; [exact H|].
  exact (generate_games_returns_num_games_games GAME_FUEL (λ i _, i) 3 H).
Defined.

(** X14.  The file that [save_games] writes determines the games: two
    batches of games (each game with at least one token, all tokens well
    formed, as [generate_games] returns them) that give the same file are
    the same batch. *)
Theorem save_games_is_injective games1 games2 :
  Forall playable games1 → Forall playable games2 →
  save_games games1 = save_games games2 → games1 = games2.
Proof.
  intros H1 H2. rewrite !save_games_lines. by apply lines_of_inj.
Qed.

Lemma save_games_is_injective_witness :
  (Forall playable [["d3"; "c3"]; ["f5"]]
   ∧ Forall playable [["d3"; "c3"]; ["f5"]]
   ∧ save_games [["d3"; "c3"]; ["f5"]] = save_games [["d3"; "c3"]; ["f5"]])
  ∧ [["d3"; "c3"]; ["f5"]] = [["d3"; "c3"]; ["f5"]].
Proof.
  assert (Forall playable [["d3"; "c3"]; ["f5"]]) as H1.
  { repeat constructor; try discriminate; vm_compute; intuition discriminate. }
  assert (save_games [["d3"; "c3"]; ["f5"]] = save_games [["d3"; "c3"]; ["f5"]])
    as H2 by reflexivity.
  split; [exact (conj H1 (conj H1 H2))|].
  exact (save_games_is_injective _ _ H1 H1 H2).
Defined.

(** X15.  [save_games] writes one line per game, in order: the file of a
    batch followed by one more game is the file of the batch followed by
    the tokens of the game joined by commas and a line feed; and when the
    tokens are well formed the file holds as many line feeds as there are
    games (an empty game gives an empty line). *)
Theorem save_games_writes_one_line_per_game games game :
  Forall (Forall well_formed) (games ++ [game]) →
  save_games (games ++ [game])
  = String.append (save_games games) (String.append (join "," game) newline)
  ∧ count_newlines (save_games (games ++ [game])) = S (length games).
Proof.
  intros Hall. split.
  - rewrite !save_games_lines.
    induction games as [|g games IH]; cbn [app lines_of].
    + by rewrite append_nil.
    + apply Forall_cons in Hall as [_ Hall].
      by rewrite (IH Hall), !append_assoc.
  - rewrite save_games_lines, count_newlines_lines_of by done.
    rewrite length_app. simpl. lia.
Qed.

Lemma save_games_writes_one_line_per_game_witness :
  Forall (Forall well_formed) ([["d3"; "c3"]; []] ++ [["f5"]])
  ∧ save_games ([["d3"; "c3"]; []] ++ [["f5"]])
    = String.append (save_games [["d3"; "c3"]; []])
        (String.append (join "," ["f5"]) newline)
  ∧ count_newlines (save_games ([["d3"; "c3"]; []] ++ [["f5"]]))
    = S (length [["d3"; "c3"]; @nil string]).
Proof.
  assert (Forall (Forall well_formed) ([["d3"; "c3"]; []] ++ [["f5"]])) as H.
  { repeat constructor; vm_compute; intuition discriminate. }
  split; [exact H|].
  exact (save_games_writes_one_line_per_game [["d3"; "c3"]; []] ["f5"] H).
Defined.

Lemma chars_append (s t : string) :
  list_ascii_of_string (String.append s t)
  = list_ascii_of_string s ++ list_ascii_of_string t.
Proof.
  induction s as [|c s IH]; [done|].
  rewrite append_cons. cbn [list_ascii_of_string]. by rewrite IH.
Qed.

Lemma join_chars game :
  Forall well_formed game →
  Forall file_char (list_ascii_of_string (join "," game)).
Proof.
  induction 1 as [|token game Htoken _ IH]; [constructor|].
  assert (Forall file_char (list_ascii_of_string token)) as Ht.
  { destruct token as [|a [|d [|]]]; try done. destruct Htoken as [Ha Hd].
    cbn [list_ascii_of_string]. apply Forall_cons. split; [by left|].
    apply Forall_cons. split; [by right; left | constructor]. }
  cbn [join]. destruct game as [|token' game]; [done|].
  rewrite !chars_append. apply Forall_app. split; [done|].
  apply Forall_app. split; [|done].
  apply Forall_singleton. by right; right; left.
Qed.

Lemma lines_of_chars games :
  Forall (Forall well_formed) games →
  Forall file_char (list_ascii_of_string (lines_of games)).
Proof.
  induction 1 as [|game games Hgame _ IH]; [constructor|].
  cbn [lines_of]. rewrite !chars_append.
  apply Forall_app. split; [by apply join_chars|].
  apply Forall_app. split; [|done].
  apply Forall_singleton. by right; right; right.
Qed.

(** X16.  What [main] leaves in the output file: [generate_games] followed
    by [save_games] gives a text of exactly [num_games] lines (none when
    [num_games] is zero or negative) made only of the letters a..h, the
    digits 1..8, commas and line feeds. *)
Theorem saved_batch_has_one_line_per_requested_game fuel rnds num_games :
  (GAME_FUEL ≤ fuel)%nat →
  ∃ games, generate_games fuel rnds num_games = Ok games
    ∧ count_newlines (save_games games) = Z.to_nat num_games
    ∧ Forall file_char (list_ascii_of_string (save_games games)).
Proof.
  intros Hfuel. unfold generate_games.
  destruct (generate_games_loop_spec fuel rnds (Py.range num_games) Hfuel [])
    as (games & Hrun & Hlen & Hall).
  rewrite range_length in Hlen.
  assert (Forall (Forall well_formed) games) as Hwf.
  { eapply Forall_impl; [exact Hall|]. by intros game [[_ ?] _]. }
  exists games. split; [done|]. rewrite save_games_lines.
  split; [|by apply lines_of_chars].
  by rewrite count_newlines_lines_of.
Qed.

Lemma saved_batch_has_one_line_per_requested_game_witness :
  (GAME_FUEL ≤ GAME_FUEL)%nat
  ∧ ∃ games, generate_games GAME_FUEL (λ i _, i) 2 = Ok games
      ∧ count_newlines (save_games games) = Z.to_nat 2
      ∧ Forall file_char (list_ascii_of_string (save_games games)).
Proof.
  assert (GAME_FUEL ≤ GAME_FUEL)%nat as H by lia.
  split; [exact H|].
  exact (saved_batch_has_one_line_per_requested_game GAME_FUEL (λ i _, i) 2 H).
Defined.
